(** * The ignition logger (package log): a shallow embedding

    The Go package wraps a log/syslog style backend in a [Logger] that
    owns a prefix stack and an operation counter.  This development
    embeds the package function by function and proves the behaviour
    of message composition, the prefix stack, the constructor and the
    two operation wrappers.

    Layout:
    - [Fmt]: the part of Go's fmt and strconv the package relies on;
    - the state monad the methods run in;
    - the package itself, one definition per Go function;
    - the bootcfg command's [main];
    - lemmas and theorems. *)

From Stdlib Require Import ZArith Nnat List FinFun String Ascii Bool Lia.
From Stdlib Require Import HexString DecimalString.
Import ListNotations.

Local Open Scope string_scope.
Local Open Scope Z_scope.

(* ------------------------------------------------------------------ *)
(** ** Go values and errors *)

(** A non-nil Go [error]: the name of its dynamic type and the text its
    [Error()] method returns.  A possibly-nil [error] is an [option]. *)
Record goerror := GoError { etype : string; emsg : string }.

Definition error := option goerror.

(** [errors.New]. *)
Definition errors_New (s : string) : goerror :=
  {| etype := "*errors.errorString"; emsg := s |}.

(** The kinds of [interface{}] argument the package hands to fmt: a
    string, an int, an error, a byte slice and a string slice. *)
Inductive value :=
| VString (s : string)
| VInt (n : Z)
| VError (e : goerror)
| VBytes (b : string)
| VStrings (l : list string).

(** Go's [int] on a 64-bit platform: two's-complement wrap-around. *)
Definition int_min : Z := - 2 ^ 63.
Definition int_max : Z := 2 ^ 63 - 1.
Definition int_wrap (z : Z) : Z := (z + 2 ^ 63) mod 2 ^ 64 - 2 ^ 63.

(* ------------------------------------------------------------------ *)
(** ** The fragment of fmt and strconv used by the package *)

(** What the fragment leaves to the library: [otherVerb] is what fmt
    prints for a verb/operand pair outside the fragment below (for
    instance [%d] applied to a string); [quoteNonASCII] is
    [strconv.Quote] on a string holding a byte above 0x7f, where the
    result depends on UTF-8 decoding and the Unicode tables. *)
Class FmtLib := {
  otherVerb : ascii -> value -> string;
  quoteNonASCII : string -> string
}.

Section Fmt.

Context {lib : FmtLib}.

(** [strings.Join]. *)
Definition Join (elems : list string) (sep : string) : string :=
  String.concat sep elems.

(** Decimal rendering of an integer ([%d], and [%v] on an int). *)
Definition fmtDecimal (n : Z) : string :=
  NilZero.string_of_int (Z.to_int n).

(** Lowercase hexadecimal rendering of an integer ([%x]): no prefix,
    no padding, a leading minus sign for a negative operand. *)
Definition fmtHex (n : Z) : string :=
  match n with
  | Z0 => "0"
  | Zpos p => HexString.Raw.of_pos p ""
  | Zneg p => String "-" (HexString.Raw.of_pos p "")
  end.

Definition hexDigit (n : N) : ascii :=
  match n with
  | 0 => "0" | 1 => "1" | 2 => "2" | 3 => "3" | 4 => "4" | 5 => "5"
  | 6 => "6" | 7 => "7" | 8 => "8" | 9 => "9" | 10 => "a" | 11 => "b"
  | 12 => "c" | 13 => "d" | 14 => "e" | _ => "f"
  end%N%char.

(** The two lowercase hex digits of one byte. *)
Definition hexByte (c : ascii) (rest : string) : string :=
  let n := N_of_ascii c in
  String (hexDigit (n / 16)) (String (hexDigit (n mod 16)) rest).

(** [%x] on a string or byte slice: two digits per byte. *)
Fixpoint fmtHexBytes (s : string) : string :=
  match s with
  | EmptyString => ""
  | String c s' => hexByte c (fmtHexBytes s')
  end.

Fixpoint bytesOf (s : string) : list Z :=
  match s with
  | EmptyString => []
  | String c s' => Z.of_N (N_of_ascii c) :: bytesOf s'
  end.

(** A slice printed element-wise: [[e1 e2 ...]]. *)
Definition fmtSlice (elems : list string) : string :=
  "[" ++ Join elems " " ++ "]".

(** [strconv.Quote]'s escape of one ASCII byte inside double quotes. *)
Definition escapeByte (c : ascii) : string :=
  let n := N_of_ascii c in
  if (n =? 34)%N then "\" ++ String c ""
  else if (n =? 92)%N then "\\"
  else if ((32 <=? n) && (n <=? 126))%N then String c ""
  else if (n =? 7)%N then "\a"
  else if (n =? 8)%N then "\b"
  else if (n =? 12)%N then "\f"
  else if (n =? 10)%N then "\n"
  else if (n =? 13)%N then "\r"
  else if (n =? 9)%N then "\t"
  else if (n =? 11)%N then "\v"
  else "\x" ++ hexByte c "".

Definition dquote : ascii := "034"%char.

Fixpoint isASCII (s : string) : bool :=
  match s with
  | EmptyString => true
  | String c s' => (N_of_ascii c <? 128)%N && isASCII s'
  end.

Fixpoint escapeBytes (s : string) : string :=
  match s with
  | EmptyString => ""
  | String c s' => escapeByte c ++ escapeBytes s'
  end.

(** [strconv.Quote] ([%q] on a string or a byte slice). *)
Definition Quote (s : string) : string :=
  if isASCII s
  then String dquote (escapeBytes s ++ String dquote "")
  else quoteNonASCII s.

(** One operand printed under one verb. *)
Definition printArg (verb : ascii) (arg : value) : string :=
  match verb, arg with
  | "s"%char, VString s => s
  | "s"%char, VError e => emsg e
  | "s"%char, VBytes b => b
  | "s"%char, VStrings l => fmtSlice l
  | "v"%char, VString s => s
  | "v"%char, VInt n => fmtDecimal n
  | "v"%char, VError e => emsg e
  | "v"%char, VBytes b => fmtSlice (map fmtDecimal (bytesOf b))
  | "v"%char, VStrings l => fmtSlice l
  | "d"%char, VInt n => fmtDecimal n
  | "d"%char, VBytes b => fmtSlice (map fmtDecimal (bytesOf b))
  | "x"%char, VInt n => fmtHex n
  | "x"%char, VString s => fmtHexBytes s
  | "x"%char, VError e => fmtHexBytes (emsg e)
  | "x"%char, VBytes b => fmtHexBytes b
  | "x"%char, VStrings l => fmtSlice (map fmtHexBytes l)
  | "q"%char, VString s => Quote s
  | "q"%char, VError e => Quote (emsg e)
  | "q"%char, VBytes b => Quote b
  | "q"%char, VStrings l => fmtSlice (map Quote l)
  | _, _ => otherVerb verb arg
  end.

(** [reflect.TypeOf(arg).String()]. *)
Definition typeName (arg : value) : string :=
  match arg with
  | VString _ => "string"
  | VInt _ => "int"
  | VError e => etype e
  | VBytes _ => "[]uint8"
  | VStrings _ => "[]string"
  end.

(** The report of operands left over once the format is exhausted. *)
Definition extraArgs (a : list value) : string :=
  match a with
  | [] => ""
  | _ => "%!(EXTRA "
           ++ Join (map (fun v => typeName v ++ "=" ++ printArg "v" v) a) ", "
           ++ ")"
  end.

(** [fmt.Sprintf].  A directive is a percent sign and the character
    after it; flags, widths, precisions and explicit operand indexes
    are not part of the fragment. *)
Fixpoint Sprintf (format : string) (a : list value) : string :=
  match format with
  | EmptyString => extraArgs a
  | String "%"%char EmptyString => "%!(NOVERB)" ++ extraArgs a
  | String "%"%char (String "%"%char rest) => String "%" (Sprintf rest a)
  | String "%"%char (String verb rest) =>
      match a with
      | [] => "%!" ++ String verb "(MISSING)" ++ Sprintf rest []
      | arg :: a' => printArg verb arg ++ Sprintf rest a'
      end
  | String c rest => String c (Sprintf rest a)
  end.

(** [fmt.Errorf] (no wrapping verb in this package). *)
Definition Errorf (format : string) (a : list value) : goerror :=
  errors_New (Sprintf format a).

End Fmt.

(* ------------------------------------------------------------------ *)
(** ** State passing *)

(** A computation over a state of type [St] that yields an [A]. *)
Definition State (St A : Type) : Type := St -> A * St.

Definition ret {St A} (x : A) : State St A := fun s => (x, s).

Definition bind {St A B} (c : State St A) (k : A -> State St B) : State St B :=
  fun s => let (x, s') := c s in k x s'.

Definition gets {St A} (f : St -> A) : State St A := fun s => (f s, s).

Definition modify {St} (f : St -> St) : State St unit := fun s => (tt, f s).

Declare Scope state_scope.
Delimit Scope state_scope with state.
Notation "x <- c ;; k" := (bind c (fun x => k))
  (at level 61, c at next level, right associativity) : state_scope.
Notation "c ;; k" := (bind c (fun _ => k))
  (at level 61, right associativity) : state_scope.
Local Open Scope state_scope.

(* ------------------------------------------------------------------ *)
(** ** The package *)

(** The eight priorities of the backend interface, most severe first. *)
Inductive Severity :=
| SEmerg | SAlert | SCrit | SErr | SWarning | SNotice | SInfo | SDebug.

Module LoggerOps.
(** [type LoggerOps interface]: eight leveled writes and [Close],
    each acting on the backend's own state of type [Sink]. *)
Record t (Sink : Type) := Build {
  Emerg : string -> Sink -> error * Sink;
  Alert : string -> Sink -> error * Sink;
  Crit : string -> Sink -> error * Sink;
  Err : string -> Sink -> error * Sink;
  Warning : string -> Sink -> error * Sink;
  Notice : string -> Sink -> error * Sink;
  Info : string -> Sink -> error * Sink;
  Debug : string -> Sink -> error * Sink;
  Close : Sink -> error * Sink
}.
Arguments Build {Sink}.
Arguments Emerg {Sink}.
Arguments Alert {Sink}.
Arguments Crit {Sink}.
Arguments Err {Sink}.
Arguments Warning {Sink}.
Arguments Notice {Sink}.
Arguments Info {Sink}.
Arguments Debug {Sink}.
Arguments Close {Sink}.
End LoggerOps.

(** The outcome of [cmd.Run()] on a command whose output streams are
    the two buffers [LogCmd] attaches: what the process wrote to each
    and the error [Run] returned. *)
Record RunResult := {
  ranStdout : string;
  ranStderr : string;
  ranErr : error
}.

(** [exec.Cmd], as far as [LogCmd] looks at it. *)
Record Cmd := {
  Path : string;
  Args : list string;
  Run : RunResult
}.

(* ------------------------------------------------------------------ *)
(** ** Concrete libraries and backends

    Stand-ins on which the lemmas are run on concrete inputs. *)

(** A rendering for the verb/operand pairs outside the fragment. *)
Definition sampleOtherVerb (verb : ascii) (arg : value) : string :=
  "%!" ++ String verb ("(" ++ typeName arg ++ ")").

(** A rendering for quoted strings outside ASCII. *)
Definition sampleQuoteNonASCII (s : string) : string :=
  String dquote (s ++ String dquote EmptyString).

Definition sampleLib : FmtLib :=
  {| otherVerb := sampleOtherVerb; quoteNonASCII := sampleQuoteNonASCII |}.

(** A console-like backend: its state is the list of lines printed so
    far, every write appends [tag msg] and succeeds. *)
Definition consoleWrite (tag msg : string) (out : list string)
  : error * list string :=
  (None, (out ++ [(tag ++ " " ++ msg)%string])%list).

Definition consoleOps : LoggerOps.t (list string) :=
  LoggerOps.Build
    (consoleWrite "EMERGENCY:") (consoleWrite "ALERT:")
    (consoleWrite "CRITICAL:") (consoleWrite "ERROR:")
    (consoleWrite "WARNING:") (consoleWrite "NOTICE:")
    (consoleWrite "INFO:") (consoleWrite "DEBUG:")
    (fun out => (None, out)).

(** A backend on which every write and the close fail. *)
Definition brokenWrite (msg : string) (out : list string)
  : error * list string :=
  (Some (errors_New "write failed"), out).

Definition brokenOps : LoggerOps.t (list string) :=
  LoggerOps.Build
    brokenWrite brokenWrite brokenWrite brokenWrite
    brokenWrite brokenWrite brokenWrite brokenWrite
    (fun out => (Some (errors_New "close failed"), out)).

Section Log.

(** The library, and the state of the backend behind the [LoggerOps]
    interface. *)
Context {lib : FmtLib} {Sink : Type}.

(** [type Logger struct]. *)
Record Logger := {
  ops : LoggerOps.t Sink;
  prefixStack : list string;
  opSequenceNum : Z
}.

(** What lies outside the logger: the backend's state, and the record
    of every call made through the interface, oldest first. *)
Record World := {
  sink : Sink;
  calls : list (Severity * string)
}.

(** The store a [*Logger] method runs in: the pointed-to logger and
    the world. *)
Record Heap := {
  self : Logger;
  world : World
}.

(** Methods with a value receiver act on the world only. *)
Definition IO := State World.

(** Methods with a pointer receiver, and the closures handed to
    [LogOp], act on the whole store. *)
Definition M := State Heap.

Definition lift {A} (c : IO A) : M A :=
  fun h => let (x, w) := c (world h) in (x, {| self := self h; world := w |}).

(** The method value [l.ops.X]: calling it runs the backend's method
    and is recorded. *)
Definition method (sev : Severity) (o : LoggerOps.t Sink)
  : string -> Sink -> error * Sink :=
  match sev with
  | SEmerg => LoggerOps.Emerg o
  | SAlert => LoggerOps.Alert o
  | SCrit => LoggerOps.Crit o
  | SErr => LoggerOps.Err o
  | SWarning => LoggerOps.Warning o
  | SNotice => LoggerOps.Notice o
  | SInfo => LoggerOps.Info o
  | SDebug => LoggerOps.Debug o
  end.

Definition call (sev : Severity) (o : LoggerOps.t Sink) (msg : string)
  : IO error :=
  fun w => let (e, s) := method sev o msg (sink w) in
           (e, {| sink := s; calls := calls w ++ [(sev, msg)] |}).

(** [func (l Logger) sprintf]. *)
Definition sprintf (l : Logger) (format : string) (a : list value) : string :=
  let m := fold_left (fun m pfx => (m ++ [Sprintf "%s:" [VString pfx]])%list)
                     (prefixStack l) [] in
  let m := (m ++ [Sprintf format a])%list in
  Join m " ".

(** [func (l Logger) log]. *)
Definition log (l : Logger) (logFunc : string -> IO error)
           (format : string) (a : list value) : IO error :=
  logFunc (sprintf l format a).

Definition Emerg (l : Logger) (format : string) (a : list value) : IO error :=
  log l (call SEmerg (ops l)) format a.

Definition Alert (l : Logger) (format : string) (a : list value) : IO error :=
  log l (call SAlert (ops l)) format a.

Definition Crit (l : Logger) (format : string) (a : list value) : IO error :=
  log l (call SCrit (ops l)) format a.

Definition Err (l : Logger) (format : string) (a : list value) : IO error :=
  log l (call SErr (ops l)) format a.

Definition Warning (l : Logger) (format : string) (a : list value) : IO error :=
  log l (call SWarning (ops l)) format a.

Definition Notice (l : Logger) (format : string) (a : list value) : IO error :=
  log l (call SNotice (ops l)) format a.

Definition Info (l : Logger) (format : string) (a : list value) : IO error :=
  log l (call SInfo (ops l)) format a.

Definition Debug (l : Logger) (format : string) (a : list value) : IO error :=
  log l (call SDebug (ops l)) format a.

(** [func (l Logger) Close]: the backend's failure is dropped. *)
Definition Close (l : Logger) : IO unit :=
  fun w => let (_, s) := LoggerOps.Close (ops l) (sink w) in
           (tt, {| sink := s; calls := calls w |}).

(** [func New]: [opened] is what [syslog.New] returned, [Stdout] the
    package's console backend. *)
Definition New (opened : LoggerOps.t Sink + goerror)
           (Stdout : LoggerOps.t Sink) : IO Logger :=
  match opened with
  | inl slogger =>
      ret {| ops := slogger; prefixStack := []; opSequenceNum := 0 |}
  | inr err =>
      let logger := {| ops := Stdout; prefixStack := []; opSequenceNum := 0 |} in
      _ <- Err logger "unable to open syslog: %v" [VError err] ;;
      ret logger
  end.

Definition setPrefixStack (st : list string) (h : Heap) : Heap :=
  {| self := {| ops := ops (self h);
                prefixStack := st;
                opSequenceNum := opSequenceNum (self h) |};
     world := world h |}.

Definition setOpSequenceNum (n : Z) (h : Heap) : Heap :=
  {| self := {| ops := ops (self h);
                prefixStack := prefixStack (self h);
                opSequenceNum := n |};
     world := world h |}.

(** [func (l *Logger) PushPrefix]. *)
Definition PushPrefix (format : string) (a : list value) : M unit :=
  modify (fun h => setPrefixStack (prefixStack (self h) ++ [Sprintf format a])%list h).

(** [func (l *Logger) PopPrefix]. *)
Definition PopPrefix : M unit :=
  l <- gets self ;;
  if (Z.of_nat (List.length (prefixStack l)) =? 0)
  then _ <- lift (Debug l "popped from empty stack" []) ;; ret tt
  else modify (fun h => setPrefixStack (removelast (prefixStack (self h))) h).

(** [func (l Logger) logStart]. *)
Definition logStart (l : Logger) (format : string) (a : list value) : IO unit :=
  _ <- Info l (Sprintf "[started]  %s" [VString format]) a ;; ret tt.

(** [func (l Logger) logFail]. *)
Definition logFail (l : Logger) (format : string) (a : list value) : IO unit :=
  _ <- Crit l (Sprintf "[failed]   %s" [VString format]) a ;; ret tt.

(** [func (l Logger) logFinish]. *)
Definition logFinish (l : Logger) (format : string) (a : list value) : IO unit :=
  _ <- Info l (Sprintf "[finished] %s" [VString format]) a ;; ret tt.

(** [func (l *Logger) LogOp].  The deferred [PopPrefix] runs once the
    result is fixed, on both ways out of the body.  The wrapped action
    is any computation on the store: it may use the logger it is
    wrapped by.  An action that panics is outside the model. *)
Definition LogOp (op : M error) (format : string) (a : list value) : M error :=
  modify (fun h => setOpSequenceNum (int_wrap (opSequenceNum (self h) + 1)) h) ;;
  n <- gets (fun h => opSequenceNum (self h)) ;;
  PushPrefix "op(%x)" [VInt n] ;;
  result <- (l <- gets self ;;
             lift (logStart l format a) ;;
             err <- op ;;
             match err with
             | Some e =>
                 l <- gets self ;;
                 lift (logFail l "%s: %v" [VString (Sprintf format a); VError e]) ;;
                 ret (Some e)
             | None =>
                 l <- gets self ;;
                 lift (logFinish l format a) ;;
                 ret None
             end) ;;
  PopPrefix ;;
  ret result.

(** [func (l *Logger) LogCmd]. *)
Definition LogCmd (cmd : Cmd) (format : string) (a : list value) : M error :=
  let f : M error :=
    l <- gets self ;;
    (if (Z.of_nat (List.length (Args cmd)) <=? 1)
     then lift (Debug l "executing: %v" [VString (Path cmd)])
     else lift (Debug l "executing: %v %v"
                      [VString (Path cmd); VStrings (skipn 1 (Args cmd))])) ;;
    let stdout := ranStdout (Run cmd) in
    let stderr := ranStderr (Run cmd) in
    match ranErr (Run cmd) with
    | Some err =>
        ret (Some (Errorf "%v: Stdout: %q Stderr: %q"
                          [VError err; VBytes stdout; VBytes stderr]))
    | None => ret None
    end in
  LogOp f format a.

(* ------------------------------------------------------------------ *)
(** ** Reading aids for the statements *)

(** The message a prefix stack and an expanded text compose to: every
    entry, oldest first, followed by a colon and a space, then the
    text. *)
Definition prefixed (stack : list string) (text : string) : string :=
  fold_right (fun pfx rest => pfx ++ ": " ++ rest) text stack.

(** The severity operation of a given priority. *)
Definition logAt (sev : Severity) (l : Logger) : string -> list value -> IO error :=
  match sev with
  | SEmerg => Emerg l
  | SAlert => Alert l
  | SCrit => Crit l
  | SErr => Err l
  | SWarning => Warning l
  | SNotice => Notice l
  | SInfo => Info l
  | SDebug => Debug l
  end.

(** The world once [msg] has gone through the [sev] method of [o]. *)
Definition wrote (sev : Severity) (o : LoggerOps.t Sink) (msg : string)
           (w : World) : World :=
  {| sink := snd (method sev o msg (sink w));
     calls := calls w ++ [(sev, msg)] |}.

(** The label of an operation identifier. *)
Definition idLabel (id : string) : string := "op(" ++ id ++ ")".

(** The label [LogOp] pushes for the counter value [n]. *)
Definition opLabel (n : Z) : string := idLabel (fmtHex n).

(** [LogOp] up to the call of the wrapped action. *)
Definition opening (format : string) (a : list value) : M unit :=
  modify (fun h => setOpSequenceNum (int_wrap (opSequenceNum (self h) + 1)) h) ;;
  n <- gets (fun h => opSequenceNum (self h)) ;;
  PushPrefix "op(%x)" [VInt n] ;;
  l <- gets self ;;
  lift (logStart l format a).

(** [LogOp] from the return of the wrapped action on. *)
Definition closing (err : error) (format : string) (a : list value) : M error :=
  result <- match err with
            | Some e =>
                l <- gets self ;;
                lift (logFail l "%s: %v" [VString (Sprintf format a); VError e]) ;;
                ret (Some e)
            | None =>
                l <- gets self ;;
                lift (logFinish l format a) ;;
                ret None
            end ;;
  PopPrefix ;;
  ret result.

(** The store in which [LogOp] calls the wrapped action. *)
Definition entered (format : string) (a : list value) (h : Heap) : Heap :=
  let n := int_wrap (opSequenceNum (self h) + 1) in
  let st := (prefixStack (self h) ++ [opLabel n])%list in
  {| self := {| ops := ops (self h); prefixStack := st; opSequenceNum := n |};
     world := wrote SInfo (ops (self h))
                    (prefixed st ("[started]  " ++ Sprintf format a))
                    (world h) |}.

(** The line [LogOp] writes once the wrapped action has returned. *)
Definition verdict (err : error) (stack : list string) (format : string)
           (a : list value) : Severity * string :=
  match err with
  | Some e =>
      (SCrit, prefixed stack ("[failed]   " ++ Sprintf format a ++ ": " ++ emsg e))
  | None =>
      (SInfo, prefixed stack ("[finished] " ++ Sprintf format a))
  end.

(** The store [LogOp] returns in, when the wrapped action returned
    [err] in [h] and the prefix stack of [h] is not empty. *)
Definition left (err : error) (format : string) (a : list value) (h : Heap) : Heap :=
  let v := verdict err (prefixStack (self h)) format a in
  {| self := {| ops := ops (self h);
                prefixStack := removelast (prefixStack (self h));
                opSequenceNum := opSequenceNum (self h) |};
     world := wrote (fst v) (ops (self h)) (snd v) (world h) |}.

(** *** Sequences of stack calls *)

Inductive StackCall :=
| CallPush (format : string) (a : list value)
| CallPop.

Fixpoint runStackCalls (cs : list StackCall) : M unit :=
  match cs with
  | [] => ret tt
  | CallPush format a :: cs' => PushPrefix format a ;; runStackCalls cs'
  | CallPop :: cs' => PopPrefix ;; runStackCalls cs'
  end.

Fixpoint countPushes (cs : list StackCall) : nat :=
  match cs with
  | [] => O
  | CallPush _ _ :: cs' => S (countPushes cs')
  | CallPop :: cs' => countPushes cs'
  end.

Fixpoint countPops (cs : list StackCall) : nat :=
  match cs with
  | [] => O
  | CallPush _ _ :: cs' => countPops cs'
  | CallPop :: cs' => S (countPops cs')
  end.

(** No initial segment of [cs] holds more pops than pushes. *)
Definition neverOverPops (cs : list StackCall) : bool :=
  forallb (fun k => (countPops (firstn k cs) <=? countPushes (firstn k cs))%nat)
          (seq 0 (S (List.length cs))).

(** The pops of [cs] that no earlier push of [cs] answers. *)
Fixpoint unmatchedPops (cs : list StackCall) : nat :=
  match cs with
  | [] => O
  | CallPush _ _ :: cs' => Nat.pred (unmatchedPops cs')
  | CallPop :: cs' => S (unmatchedPops cs')
  end.

(** The pushed labels minus the popped ones, in push order: a pushed
    label stays when every pop after it is answered by a later push. *)
Fixpoint survivors (cs : list StackCall) : list string :=
  match cs with
  | [] => []
  | CallPush format a :: cs' =>
      match unmatchedPops cs' with
      | O => Sprintf format a :: survivors cs'
      | S _ => survivors cs'
      end
  | CallPop :: cs' => survivors cs'
  end.

(** Starting at depth [depth], no pop of [cs] meets an empty stack. *)
Fixpoint safe (cs : list StackCall) (depth : nat) : bool :=
  match cs with
  | [] => true
  | CallPush _ _ :: cs' => safe cs' (S depth)
  | CallPop :: cs' =>
      match depth with
      | O => false
      | S depth' => safe cs' depth'
      end
  end.

(** *** Trees of wrapped operations *)

(** A run of the wrappers: a [LogOp] whose action runs further jobs in
    turn and then returns [result], or a [LogCmd]. *)
#[local] Set Warnings "-register-all".
Inductive Job :=
| JobOp (format : string) (a : list value) (body : list Job) (result : error)
| JobCmd (cmd : Cmd) (format : string) (a : list value).

Fixpoint runJob (j : Job) : M error :=
  match j with
  | JobOp format a body result =>
      LogOp ((fix runAll (js : list Job) : M unit :=
                match js with
                | [] => ret tt
                | j' :: js' => _ <- runJob j' ;; runAll js'
                end) body ;;
             ret result)
            format a
  | JobCmd cmd format a => LogCmd cmd format a
  end.

Fixpoint runJobs (js : list Job) : M unit :=
  match js with
  | [] => ret tt
  | j :: js' => _ <- runJob j ;; runJobs js'
  end.

(** The number of wrapper invocations in a job. *)
Fixpoint invocations (j : Job) : nat :=
  match j with
  | JobOp _ _ body _ =>
      S ((fix sum (js : list Job) : nat :=
            match js with
            | [] => O
            | j' :: js' => (invocations j' + sum js')%nat
            end) body)
  | JobCmd _ _ _ => 1%nat
  end.

Fixpoint invocationsAll (js : list Job) : nat :=
  match js with
  | [] => O
  | j :: js' => (invocations j + invocationsAll js')%nat
  end.

(** The error [LogCmd]'s action returns for a command. *)
Definition cmdFailure (cmd : Cmd) : error :=
  match ranErr (Run cmd) with
  | Some err =>
      Some (Errorf "%v: Stdout: %q Stderr: %q"
                   [VError err; VBytes (ranStdout (Run cmd));
                    VBytes (ranStderr (Run cmd))])
  | None => None
  end.

(** The debug line [LogCmd]'s action writes for a command. *)
Definition cmdLine (cmd : Cmd) : string :=
  match Args cmd with
  | [] | [_] => "executing: " ++ Path cmd
  | _ :: rest => "executing: " ++ Path cmd ++ " " ++ fmtSlice rest
  end.

(** The lines a job writes when its invocations draw their identifiers
    from [ids], first come first served, under the prefix stack
    [stack]; and the identifiers left over. *)
Fixpoint narrate (stack : list string) (j : Job) (ids : list string)
  : list (Severity * string) * list string :=
  match ids with
  | [] => ([], [])
  | id :: ids' =>
      let st := (stack ++ [idLabel id])%list in
      match j with
      | JobOp format a body result =>
          let (inner, rest) :=
            (fix all (js : list Job) (ids : list string) :=
               match js with
               | [] => ([], ids)
               | j' :: js' =>
                   let (here, ids1) := narrate st j' ids in
                   let (there, ids2) := all js' ids1 in
                   ((here ++ there)%list, ids2)
               end) body ids' in
          (((SInfo, prefixed st ("[started]  " ++ Sprintf format a)) :: inner
            ++ [verdict result st format a])%list, rest)
      | JobCmd cmd format a =>
          ([(SInfo, prefixed st ("[started]  " ++ Sprintf format a));
            (SDebug, prefixed st (cmdLine cmd));
            verdict (cmdFailure cmd) st format a], ids')
      end
  end.

Definition narrateAll (stack : list string)
  : list Job -> list string -> list (Severity * string) * list string :=
  fix all (js : list Job) (ids : list string) :=
    match js with
    | [] => ([], ids)
    | j :: js' =>
        let (here, ids1) := narrate stack j ids in
        let (there, ids2) := all js' ids1 in
        ((here ++ there)%list, ids2)
    end.

(** The integers [1 .. n]. *)
Definition upTo (n : nat) : list Z := map Z.of_nat (seq 1 n).

(** The identifiers of the counter values [n + 1 .. n + count]. *)
Definition idsFrom (n : Z) (count : nat) : list string :=
  map (fun i => fmtHex (n + Z.of_nat i)) (seq 1 count).

(** A job, run where the counter is not negative and has room for the
    job's invocations, moves the counter up by their number, hands the
    stack back, and writes the lines that [narrate] tells for the
    identifiers of the counter values it passes through. *)
Definition narrated (j : Job) : Prop :=
  forall (h : Heap) (rest : list string),
    0 <= opSequenceNum (self h) ->
    opSequenceNum (self h) + Z.of_nat (invocations j) <= int_max ->
    opSequenceNum (self (snd (runJob j h)))
    = opSequenceNum (self h) + Z.of_nat (invocations j)
    /\ prefixStack (self (snd (runJob j h))) = prefixStack (self h)
    /\ snd (narrate (prefixStack (self h)) j
                    (idsFrom (opSequenceNum (self h)) (invocations j) ++ rest))
       = rest
    /\ calls (world (snd (runJob j h)))
       = (calls (world h)
            ++ fst (narrate (prefixStack (self h)) j
                            (idsFrom (opSequenceNum (self h)) (invocations j)
                               ++ rest)))%list.

Definition narratedAll (js : list Job) : Prop :=
  forall (h : Heap) (rest : list string),
    0 <= opSequenceNum (self h) ->
    opSequenceNum (self h) + Z.of_nat (invocationsAll js) <= int_max ->
    opSequenceNum (self (snd (runJobs js h)))
    = opSequenceNum (self h) + Z.of_nat (invocationsAll js)
    /\ prefixStack (self (snd (runJobs js h))) = prefixStack (self h)
    /\ snd (narrateAll (prefixStack (self h)) js
                       (idsFrom (opSequenceNum (self h)) (invocationsAll js)
                          ++ rest))
       = rest
    /\ calls (world (snd (runJobs js h)))
       = (calls (world h)
            ++ fst (narrateAll (prefixStack (self h)) js
                               (idsFrom (opSequenceNum (self h))
                                        (invocationsAll js) ++ rest)))%list.

(** Induction on jobs that reaches the jobs inside a [JobOp]. *)
Fixpoint Job_nested_ind (P : Job -> Prop)
         (Hop : forall format a body result,
             Forall P body -> P (JobOp format a body result))
         (Hcmd : forall cmd format a, P (JobCmd cmd format a))
         (j : Job) : P j :=
  match j with
  | JobOp format a body result =>
      Hop format a body result
          ((fix each (js : list Job) : Forall P js :=
              match js with
              | [] => Forall_nil P
              | j' :: js' =>
                  Forall_cons j' (Job_nested_ind P Hop Hcmd j') (each js')
              end) body)
  | JobCmd cmd format a => Hcmd cmd format a
  end.

(** The closure [LogCmd] hands to [LogOp]. *)
Definition cmdAction (cmd : Cmd) : M error :=
  l <- gets self ;;
  (if (Z.of_nat (List.length (Args cmd)) <=? 1)
   then lift (Debug l "executing: %v" [VString (Path cmd)])
   else lift (Debug l "executing: %v %v"
                    [VString (Path cmd); VStrings (skipn 1 (Args cmd))])) ;;
  match ranErr (Run cmd) with
  | Some err =>
      ret (Some (Errorf "%v: Stdout: %q Stderr: %q"
                        [VError err; VBytes (ranStdout (Run cmd));
                         VBytes (ranStderr (Run cmd))]))
  | None => ret None
  end.

(** An action that logs one message through the logger it is wrapped
    by and returns what the severity operation returned. *)
Definition logging (sev : Severity) (format : string) (a : list value) : M error :=
  l <- gets self ;; lift (logAt sev l format a).

(** [op], run in [h], hands the prefix stack back as it found it. *)
Definition keepsStack (op : M error) (h : Heap) : Prop :=
  prefixStack (self (snd (op h))) = prefixStack (self h).

(** [needle] occurs in [hay]. *)
Definition contains (needle hay : string) : Prop :=
  exists pre post, hay = pre ++ needle ++ post.

End Log.

Arguments Logger Sink : clear implicits.
Arguments World Sink : clear implicits.
Arguments Heap Sink : clear implicits.
Arguments IO Sink : clear implicits.
Arguments M Sink : clear implicits.

(* ------------------------------------------------------------------ *)
(** ** The package on the sample library and the console backend *)

Module Sample.

Definition Sink : Type := list string.

Definition LogOp := LogOp (lib := sampleLib) (Sink := Sink).
Definition LogCmd := LogCmd (lib := sampleLib) (Sink := Sink).
Definition PushPrefix := PushPrefix (lib := sampleLib) (Sink := Sink).
Definition PopPrefix := PopPrefix (lib := sampleLib) (Sink := Sink).
Definition logStart := logStart (lib := sampleLib) (Sink := Sink).
Definition entered := entered (lib := sampleLib) (Sink := Sink).
Definition runStackCalls := runStackCalls (lib := sampleLib) (Sink := Sink).
Definition runJobs := runJobs (lib := sampleLib) (Sink := Sink).
(** A logger as [New] returns it on the console backend. *)
Definition fresh : Logger Sink :=
  {| ops := consoleOps; prefixStack := []; opSequenceNum := 0 |}.

(** The same logger on the backend whose writes all fail. *)
Definition broken : Logger Sink :=
  {| ops := brokenOps; prefixStack := []; opSequenceNum := 0 |}.

Definition quiet : World Sink := {| sink := []; calls := [] |}.

Definition start (l : Logger Sink) : Heap Sink := {| self := l; world := quiet |}.

(** A logger that already carries the prefix "boot". *)
Definition booted : Logger Sink :=
  {| ops := consoleOps; prefixStack := ["boot"]; opSequenceNum := 0 |}.

Definition boom : goerror := errors_New "boom".

(** An action that fails without touching the logger. *)
Definition failing : M Sink error := ret (Some boom).

(** An action that succeeds without touching the logger. *)
Definition succeeding : M Sink error := ret None.

(** An action that pushes a prefix, leaves it there and fails. *)
Definition pushesAndFails : M Sink error :=
  (PushPrefix "x" [] ;; ret (Some boom))%state.

(** An action that pops a prefix it did not push and succeeds. *)
Definition popsAndSucceeds : M Sink error :=
  (PopPrefix ;; ret None)%state.

(** A command that writes "out" to its standard output and fails. *)
Definition falseCmd : Cmd :=
  {| Path := "/bin/false";
     Args := ["false"; "-v"];
     Run := {| ranStdout := "out";
               ranStderr := "";
               ranErr := Some (errors_New "exit status 1") |} |}.

Definition threeJobs : list Job :=
  [JobOp "outer" [] [JobOp "inner %d" [VInt 7] [] None] (Some boom);
   JobCmd falseCmd "run" []].

Definition fourCalls : list StackCall :=
  [CallPush "a" []; CallPush "b%d" [VInt 2]; CallPop; CallPush "c" []].

End Sample.

(* ------------------------------------------------------------------ *)
(** ** The bootcfg command (cmd/bootcfg) *)

(** The flags of the command, as they stand once the command line and
    the environment have been read. *)
Record Flags := {
  address : string;
  rpcAddress : string;
  dataPath : string;
  assetsPath : string;
  logLevel : string;
  certFile : string;
  keyFile : string;
  caFile : string;
  keyRingPath : string;
  version : bool;
  help : bool
}.

(** The values the flags are declared with. *)
Definition defaultFlags : Flags :=
  {| address := "127.0.0.1:8080";
     rpcAddress := "";
     dataPath := "/var/lib/bootcfg";
     assetsPath := "/var/lib/bootcfg/assets";
     logLevel := "info";
     certFile := "/etc/bootcfg/server.crt";
     keyFile := "/etc/bootcfg/server.key";
     caFile := "/etc/bootcfg/ca.crt";
     keyRingPath := "";
     version := false;
     help := false |}.

(** [logrus.Level]. *)
Inductive Level :=
| PanicLevel | FatalLevel | ErrorLevel | WarnLevel | InfoLevel | DebugLevel.

(** What [main] finds around it: the flags, and what each call it
    makes outside the program returns. *)
Record Env := {
  flags : Flags;
  (** [flagutil.SetFlagsFromEnv(flag.CommandLine, "BOOTCFG")]. *)
  flagutil_SetFlagsFromEnv : error;
  (** [os.Getenv("BOOTCFG_PASSPHRASE")]. *)
  os_Getenv : string;
  (** [version.Version]. *)
  version_Version : string;
  (** [url.Parse]: the parsed URL's [String()], or the error. *)
  url_Parse : string -> string + goerror;
  (** [os.Stat]: the file's [IsDir()], or the error. *)
  os_Stat : string -> bool + goerror;
  (** [logrus.ParseLevel]. *)
  logrus_ParseLevel : string -> Level + goerror;
  (** [sign.LoadGPGEntity], by key ring path and passphrase. *)
  sign_LoadGPGEntity : string -> string -> error;
  (** [net.Listen("tcp", addr)]. *)
  net_Listen : string -> error;
  (** [tlsinfo.ServerConfig()], by certificate, key and CA file. *)
  tlsinfo_ServerConfig : string -> string -> string -> error;
  (** [http.ListenAndServe]: the error it returns when it returns. *)
  http_ListenAndServe : string -> error
}.

(** What [main] does that can be seen from outside, in order. *)
Inductive Event :=
| Fatal (msg : string)
| Println (text : string)
| Usage
| Stat (path : string)
| Infof (msg : string)
| SetLevel (lvl : Level)
| LoadGPGEntity (path passphrase : string)
| Listen (addr : string)
| ServerConfig (cert key ca : string)
| Serve
| ListenAndServe (addr assets : string) (signing : bool)
| Stop.

(** A run of the process: the events so far, and the value computed,
    unless the process has exited. *)
Definition Proc (A : Type) : Type := list Event * option A.

Definition done {A} (x : A) : Proc A := ([], Some x).

Definition andThen {A B} (c : Proc A) (k : A -> Proc B) : Proc B :=
  match c with
  | (t, Some x) => let (t', r) := k x in ((t ++ t')%list, r)
  | (t, None) => (t, None)
  end.

Definition emit (e : Event) : Proc unit := ([e], Some tt).

(** [log.Fatal] and [log.Fatalf]: the message, then [os.Exit(1)]. *)
Definition fatal {A} (msg : string) : Proc A := ([Fatal msg], None).

Declare Scope proc_scope.
Delimit Scope proc_scope with proc.
Notation "x <- c ;; k" := (andThen c (fun x => k))
  (at level 61, c at next level, right associativity) : proc_scope.
Notation "c ;; k" := (andThen c (fun _ => k))
  (at level 61, right associativity) : proc_scope.

Section Bootcfg.

Context {lib : FmtLib}.

Local Open Scope proc_scope.

(** [func main], from the point where [flag.Parse] has returned.  The
    value returned tells that [main] returned; a run that ends in
    [log.Fatal] has none, and runs no deferred call.  The constructors
    of the store, the servers and the signers are taken to do nothing
    that can be seen from outside. *)
Definition main (e : Env) : Proc unit :=
  let flags := flags e in
  match flagutil_SetFlagsFromEnv e with
  | Some err => fatal (emsg err)
  | None => done tt
  end ;;
  let passphrase := os_Getenv e in
  if version flags then emit (Println (version_Version e))
  else if help flags then emit Usage
  else
    match url_Parse e (address flags) with
    | inr _ => fatal "A valid HTTP listen address is required"
    | inl url =>
        if (url =? "")%string
        then fatal "A valid HTTP listen address is required"
        else done tt
    end ;;
    emit (Stat (dataPath flags)) ;;
    match os_Stat e (dataPath flags) with
    | inr _ => fatal "A valid -data-path is required"
    | inl isDir =>
        if negb isDir then fatal "A valid -data-path is required" else done tt
    end ;;
    (if negb (assetsPath flags =? "")%string
     then
       emit (Stat (assetsPath flags)) ;;
       match os_Stat e (assetsPath flags) with
       | inl true => done tt
       | _ =>
           fatal (Sprintf
                    "Provide a valid -assets-path or '' to disable asset serving: %s"
                    [VString (assetsPath flags)])
       end
     else done tt) ;;
    (if negb (rpcAddress flags =? "")%string
     then
       emit (Stat (certFile flags)) ;;
       match os_Stat e (certFile flags) with
       | inr err =>
           fatal (Sprintf "Provide a valid TLS server certificate with -cert-file: %v"
                          [VError err])
       | inl _ => done tt
       end ;;
       emit (Stat (keyFile flags)) ;;
       match os_Stat e (keyFile flags) with
       | inr err =>
           fatal (Sprintf "Provide a valid TLS server key with -key-file: %v"
                          [VError err])
       | inl _ => done tt
       end ;;
       emit (Stat (caFile flags)) ;;
       match os_Stat e (caFile flags) with
       | inr err =>
           fatal (Sprintf
                    "Provide a valid TLS certificate authority for authorizing client certificates: %v"
                    [VError err])
       | inl _ => done tt
       end
     else done tt) ;;
    match logrus_ParseLevel e (logLevel flags) with
    | inr err => fatal (Sprintf "invalid log-level: %v" [VError err])
    | inl lvl => emit (SetLevel lvl)
    end ;;
    signing <- (if negb (keyRingPath flags =? "")%string
                then
                  emit (LoadGPGEntity (keyRingPath flags) passphrase) ;;
                  match sign_LoadGPGEntity e (keyRingPath flags) passphrase with
                  | Some err => fatal (emsg err)
                  | None => done true
                  end
                else done false) ;;
    deferred <- (if negb (rpcAddress flags =? "")%string
                 then
                   emit (Infof (Sprintf "starting bootcfg gRPC server on %s"
                                        [VString (rpcAddress flags)])) ;;
                   emit (Infof (Sprintf "Using TLS server certificate: %s"
                                        [VString (certFile flags)])) ;;
                   emit (Infof (Sprintf "Using TLS server key: %s"
                                        [VString (keyFile flags)])) ;;
                   emit (Infof (Sprintf
                                  "Using CA certificate: %s to authenticate client certificates"
                                  [VString (caFile flags)])) ;;
                   emit (Listen (rpcAddress flags)) ;;
                   match net_Listen e (rpcAddress flags) with
                   | Some err =>
                       fatal (Sprintf "failed to start listening: %v" [VError err])
                   | None => done tt
                   end ;;
                   emit (ServerConfig (certFile flags) (keyFile flags) (caFile flags)) ;;
                   match tlsinfo_ServerConfig e (certFile flags) (keyFile flags)
                                              (caFile flags) with
                   | Some err =>
                       fatal (Sprintf "Invalid TLS credentials: %v" [VError err])
                   | None => done tt
                   end ;;
                   emit Serve ;;
                   done true
                 else done false) ;;
    emit (Infof (Sprintf "starting bootcfg HTTP server on %s"
                         [VString (address flags)])) ;;
    emit (ListenAndServe (address flags) (assetsPath flags) signing) ;;
    match http_ListenAndServe e (address flags) with
    | Some err => fatal (Sprintf "failed to start listening: %v" [VError err])
    | None => done tt
    end ;;
    if deferred then emit Stop else done tt.

(** Every check of [main] passes in [e]. *)
Definition valid (e : Env) : Prop :=
  let f := flags e in
  flagutil_SetFlagsFromEnv e = None
  /\ (exists url, url_Parse e (address f) = inl url /\ url <> "")
  /\ os_Stat e (dataPath f) = inl true
  /\ (assetsPath f = "" \/ os_Stat e (assetsPath f) = inl true)
  /\ (rpcAddress f = ""
      \/ ((exists d, os_Stat e (certFile f) = inl d)
          /\ (exists d, os_Stat e (keyFile f) = inl d)
          /\ (exists d, os_Stat e (caFile f) = inl d)
          /\ net_Listen e (rpcAddress f) = None
          /\ tlsinfo_ServerConfig e (certFile f) (keyFile f) (caFile f) = None))
  /\ (exists lvl, logrus_ParseLevel e (logLevel f) = inl lvl)
  /\ (keyRingPath f = ""
      \/ sign_LoadGPGEntity e (keyRingPath f) (os_Getenv e) = None).

(** The paths of the [os.Stat] calls of a run, in order. *)
Fixpoint statPaths (t : list Event) : list string :=
  match t with
  | [] => []
  | Stat path :: t' => path :: statPaths t'
  | _ :: t' => statPaths t'
  end.

(** The files [main] examines when no check fails, in order. *)
Definition examined (f : Flags) : list string :=
  (dataPath f
     :: (if (assetsPath f =? "")%string then [] else [assetsPath f])
     ++ (if (rpcAddress f =? "")%string
         then []
         else [certFile f; keyFile f; caFile f]))%list.

(** The -address flag passes [main]'s check. *)
Definition addressOk (e : Env) : bool :=
  match url_Parse e (address (flags e)) with
  | inl url => negb (url =? "")%string
  | inr _ => false
  end.

(** [os.Stat] finds a directory at [path]. *)
Definition isDirectory (e : Env) (path : string) : bool :=
  match os_Stat e path with
  | inl true => true
  | _ => false
  end.

End Bootcfg.

(** Environments on which the facts about [main] are run. *)
Module SampleRun.

(** Nothing fails, and [http.ListenAndServe] returns [served]. *)
Definition allGood (f : Flags) (served : error) : Env :=
  {| flags := f;
     flagutil_SetFlagsFromEnv := None;
     os_Getenv := "secret";
     version_Version := "v0.3.0";
     url_Parse := fun s => inl s;
     os_Stat := fun _ => inl true;
     logrus_ParseLevel := fun _ => inl InfoLevel;
     sign_LoadGPGEntity := fun _ _ => None;
     net_Listen := fun _ => None;
     tlsinfo_ServerConfig := fun _ _ _ => None;
     http_ListenAndServe := fun _ => served |}.

(** Every file is missing and every call fails. *)
Definition allBad (f : Flags) : Env :=
  {| flags := f;
     flagutil_SetFlagsFromEnv := None;
     os_Getenv := "";
     version_Version := "v0.3.0";
     url_Parse := fun _ => inr (errors_New "invalid URL");
     os_Stat := fun _ => inr (errors_New "no such file or directory");
     logrus_ParseLevel := fun _ => inr (errors_New "not a valid logrus Level");
     sign_LoadGPGEntity := fun _ _ => Some (errors_New "no key ring");
     net_Listen := fun _ => Some (errors_New "address in use");
     tlsinfo_ServerConfig := fun _ _ _ => Some (errors_New "bad certificate");
     http_ListenAndServe := fun _ => Some (errors_New "address in use") |}.

Definition versionFlags : Flags :=
  {| address := ""; rpcAddress := ""; dataPath := ""; assetsPath := "";
     logLevel := ""; certFile := ""; keyFile := ""; caFile := "";
     keyRingPath := ""; version := true; help := true |}.

Definition rpcFlags : Flags :=
  {| address := "0.0.0.0:8080"; rpcAddress := "0.0.0.0:8081";
     dataPath := "/var/lib/bootcfg"; assetsPath := "";
     logLevel := "debug"; certFile := "server.crt"; keyFile := "server.key";
     caFile := "ca.crt"; keyRingPath := "ring.gpg";
     version := false; help := false |}.

End SampleRun.

(* ------------------------------------------------------------------ *)
(** ** Facts *)

Section Facts.

Context {lib : FmtLib} {Sink : Type}.

Local Abbreviation Logger := (Logger Sink).
Local Abbreviation World := (World Sink).
Local Abbreviation Heap := (Heap Sink).
Local Abbreviation IO := (IO Sink).
Local Abbreviation M := (M Sink).

(* ------------------------------------------------------------------ *)
(** ** Formatting lemmas *)

Lemma append_empty_r (s : string) : s ++ "" = s.
Proof.
  induction s as [|c s IH]; simpl; [reflexivity | now rewrite IH].
Qed.

Lemma append_assoc (s t u : string) : (s ++ t) ++ u = s ++ (t ++ u).
Proof.
  induction s as [|c s IH]; simpl; [reflexivity | now rewrite IH].
Qed.

Lemma Sprintf_label (pfx : string) :
  Sprintf "%s:" [VString pfx] = pfx ++ ":".
Proof. reflexivity. Qed.

Lemma Sprintf_opid (n : Z) :
  Sprintf "op(%x)" [VInt n] = "op(" ++ fmtHex n ++ ")".
Proof. reflexivity. Qed.

Lemma Sprintf_started (format : string) (a : list value) :
  Sprintf (Sprintf "[started]  %s" [VString format]) a
  = "[started]  " ++ Sprintf format a.
Proof. simpl. rewrite append_empty_r. reflexivity. Qed.

Lemma Sprintf_finished (format : string) (a : list value) :
  Sprintf (Sprintf "[finished] %s" [VString format]) a
  = "[finished] " ++ Sprintf format a.
Proof. simpl. rewrite append_empty_r. reflexivity. Qed.

Lemma Sprintf_failed (text : string) (e : goerror) :
  Sprintf (Sprintf "[failed]   %s" [VString "%s: %v"]) [VString text; VError e]
  = "[failed]   " ++ text ++ ": " ++ emsg e.
Proof. simpl. rewrite append_empty_r. reflexivity. Qed.

Lemma collect_labels (g : string -> string) (st acc : list string) :
  fold_left (fun m pfx => (m ++ [g pfx])%list) st acc = (acc ++ map g st)%list.
Proof.
  revert acc; induction st as [|p st IH]; intros acc; simpl.
  - now rewrite app_nil_r.
  - rewrite IH, <- app_assoc. reflexivity.
Qed.

Lemma Join_labels (st : list string) (text : string) :
  Join (map (fun pfx => (pfx ++ ":")%string) st ++ [text])%list " " = prefixed st text.
Proof.
  induction st as [|p st IH]; simpl; [reflexivity|].
  unfold Join in *. simpl.
  destruct (map (fun pfx => (pfx ++ ":")%string) st ++ [text])%list eqn:E.
  - destruct st; discriminate.
  - rewrite IH, append_assoc. reflexivity.
Qed.

Lemma sprintf_prefixed (l : Logger) (format : string) (a : list value) :
  sprintf l format a = prefixed (prefixStack l) (Sprintf format a).
Proof.
  unfold sprintf. rewrite collect_labels.
  exact (Join_labels (prefixStack l) (Sprintf format a)).
Qed.

Lemma logAt_wrote (sev : Severity) (l : Logger) (format : string)
      (a : list value) (w : World) :
  logAt sev l format a w
  = (fst (method sev (ops l) (prefixed (prefixStack l) (Sprintf format a)) (sink w)),
     wrote sev (ops l) (prefixed (prefixStack l) (Sprintf format a)) w).
Proof.
  destruct sev;
    unfold logAt, Emerg, Alert, Crit, Err, Warning, Notice, Info, Debug,
      log, call, wrote;
    rewrite sprintf_prefixed; cbn [method];
    match goal with |- context [let (_, _) := ?t in _] => destruct t end;
    reflexivity.
Qed.

Lemma Info_wrote (l : Logger) (format : string) (a : list value) (w : World) :
  Info l format a w
  = (fst (method SInfo (ops l) (prefixed (prefixStack l) (Sprintf format a)) (sink w)),
     wrote SInfo (ops l) (prefixed (prefixStack l) (Sprintf format a)) w).
Proof. exact (logAt_wrote SInfo l format a w). Qed.

Lemma Crit_wrote (l : Logger) (format : string) (a : list value) (w : World) :
  Crit l format a w
  = (fst (method SCrit (ops l) (prefixed (prefixStack l) (Sprintf format a)) (sink w)),
     wrote SCrit (ops l) (prefixed (prefixStack l) (Sprintf format a)) w).
Proof. exact (logAt_wrote SCrit l format a w). Qed.

Lemma Err_wrote (l : Logger) (format : string) (a : list value) (w : World) :
  Err l format a w
  = (fst (method SErr (ops l) (prefixed (prefixStack l) (Sprintf format a)) (sink w)),
     wrote SErr (ops l) (prefixed (prefixStack l) (Sprintf format a)) w).
Proof. exact (logAt_wrote SErr l format a w). Qed.

Lemma Debug_wrote (l : Logger) (format : string) (a : list value) (w : World) :
  Debug l format a w
  = (fst (method SDebug (ops l) (prefixed (prefixStack l) (Sprintf format a)) (sink w)),
     wrote SDebug (ops l) (prefixed (prefixStack l) (Sprintf format a)) w).
Proof. exact (logAt_wrote SDebug l format a w). Qed.

(* ------------------------------------------------------------------ *)
(** ** The shape of [LogOp] *)

Lemma logStart_wrote (l : Logger) (format : string) (a : list value) (w : World) :
  logStart l format a w
  = (tt, wrote SInfo (ops l)
               (prefixed (prefixStack l) ("[started]  " ++ Sprintf format a)) w).
Proof.
  unfold logStart, bind, ret.
  rewrite Info_wrote, Sprintf_started. reflexivity.
Qed.

Lemma logFinish_wrote (l : Logger) (format : string) (a : list value) (w : World) :
  logFinish l format a w
  = (tt, wrote SInfo (ops l)
               (prefixed (prefixStack l) ("[finished] " ++ Sprintf format a)) w).
Proof.
  unfold logFinish, bind, ret.
  rewrite Info_wrote, Sprintf_finished. reflexivity.
Qed.

Lemma logFail_wrote (l : Logger) (text : string) (e : goerror) (w : World) :
  logFail l "%s: %v" [VString text; VError e] w
  = (tt, wrote SCrit (ops l)
               (prefixed (prefixStack l) ("[failed]   " ++ text ++ ": " ++ emsg e)) w).
Proof.
  unfold logFail, bind, ret.
  rewrite Crit_wrote, Sprintf_failed. reflexivity.
Qed.

Lemma opening_entered (format : string) (a : list value) (h : Heap) :
  opening format a h = (tt, entered format a h).
Proof.
  unfold opening, bind, modify, gets, PushPrefix, lift. simpl.
  rewrite logStart_wrote. reflexivity.
Qed.

Lemma LogOp_entered (op : M error) (format : string) (a : list value) (h : Heap) :
  LogOp op format a h
  = closing (fst (op (entered format a h))) format a
            (snd (op (entered format a h))).
Proof.
  pose proof (opening_entered format a h) as E.
  unfold opening, bind, modify, gets, PushPrefix in E.
  unfold LogOp, closing, bind, modify, gets, PushPrefix.
  simpl in *.
  destruct (lift (logStart _ format a) _) as [u h1].
  injection E as _ ->.
  destruct (op (entered format a h)) as [[e|] h2]; simpl; reflexivity.
Qed.

Lemma closing_result (err : error) (format : string) (a : list value) (h : Heap) :
  fst (closing err format a h) = err.
Proof.
  unfold closing, bind, gets, ret.
  destruct err as [e|];
    match goal with |- context [lift ?c ?k] => destruct (lift c k) as [u h1] end;
    destruct (PopPrefix h1); reflexivity.
Qed.

Lemma PopPrefix_nonempty (h : Heap) :
  prefixStack (self h) <> [] ->
  PopPrefix h = (tt, setPrefixStack (removelast (prefixStack (self h))) h).
Proof.
  intros Hne. unfold PopPrefix, bind, gets, modify.
  destruct (Z.eqb_spec (Z.of_nat (List.length (prefixStack (self h)))) 0)
    as [Hz|Hz]; [|reflexivity].
  destruct (prefixStack (self h)); [congruence | simpl in Hz; lia].
Qed.

Lemma PopPrefix_empty (h : Heap) :
  prefixStack (self h) = [] ->
  PopPrefix h
  = (tt, {| self := self h;
            world := wrote SDebug (ops (self h)) "popped from empty stack"
                           (world h) |}).
Proof.
  intros E. unfold PopPrefix, bind, gets, ret, lift. rewrite E. simpl.
  rewrite Debug_wrote. rewrite E. reflexivity.
Qed.

Lemma closing_left (err : error) (format : string) (a : list value) (h : Heap) :
  prefixStack (self h) <> [] ->
  closing err format a h = (err, left err format a h).
Proof.
  intros Hne. unfold closing, bind, gets, ret, lift.
  destruct err as [e|].
  - rewrite logFail_wrote. rewrite PopPrefix_nonempty by exact Hne. reflexivity.
  - rewrite logFinish_wrote. rewrite PopPrefix_nonempty by exact Hne. reflexivity.
Qed.

Lemma closing_on_empty (err : error) (format : string) (a : list value)
      (h : Heap) :
  prefixStack (self h) = [] ->
  closing err format a h
  = (err,
     {| self := self h;
        world := wrote SDebug (ops (self h)) "popped from empty stack"
                       (wrote (fst (verdict err [] format a)) (ops (self h))
                              (snd (verdict err [] format a)) (world h)) |}).
Proof.
  intros E. unfold closing, bind, gets, ret, lift.
  destruct err as [e|].
  - rewrite logFail_wrote, PopPrefix_empty by exact E. rewrite E. reflexivity.
  - rewrite logFinish_wrote, PopPrefix_empty by exact E. rewrite E. reflexivity.
Qed.

(* ------------------------------------------------------------------ *)
(** ** Message composition *)

(** C1. With the prefix stack [[A; B]], every severity operation hands
    the backend method of its priority exactly the string made of [A],
    a colon, a space, [B], a colon, a space and the expanded message;
    in particular [Info] with the message "msg" passes "A: B: msg".
    In general the entries come oldest first, each followed by a colon,
    all joined with the message by single spaces. *)
Theorem severity_composes_prefixes :
  forall (sev : Severity) (o : LoggerOps.t Sink) (n : Z) (A B format : string)
         (a : list value) (w : World),
    let l := {| ops := o; prefixStack := [A; B]; opSequenceNum := n |} in
    sprintf l format a = A ++ ": " ++ B ++ ": " ++ Sprintf format a
    /\ logAt sev l format a w
       = (fst (method sev o (A ++ ": " ++ B ++ ": " ++ Sprintf format a) (sink w)),
          wrote sev o (A ++ ": " ++ B ++ ": " ++ Sprintf format a) w)
    /\ snd (Info l "msg" [] w) = wrote SInfo o (A ++ ": " ++ B ++ ": msg") w
    /\ (forall l' : Logger,
          sprintf l' format a = prefixed (prefixStack l') (Sprintf format a)).
Proof.
  intros sev o n A B format a w l. repeat split.
  - rewrite sprintf_prefixed. reflexivity.
  - rewrite logAt_wrote. reflexivity.
  - rewrite Info_wrote. reflexivity.
  - intros l'. apply sprintf_prefixed.
Qed.

(** C6 (as the code has it). The three markers are padded with spaces
    to one width of eleven columns: the start message is "[started]"
    and two spaces before the expanded message, the success message
    "[finished]" and one space, the failure message "[failed]" and
    three spaces; [LogOp]'s failure message continues with a colon, a
    space and the failure's text. *)
Theorem markers_are_padded :
  forall (l : Logger) (format : string) (a : list value) (w : World),
    logStart l format a w
    = (tt, wrote SInfo (ops l)
                 (prefixed (prefixStack l) ("[started]  " ++ Sprintf format a)) w)
    /\ logFinish l format a w
       = (tt, wrote SInfo (ops l)
                    (prefixed (prefixStack l) ("[finished] " ++ Sprintf format a)) w)
    /\ logFail l format a w
       = (tt, wrote SCrit (ops l)
                    (prefixed (prefixStack l) ("[failed]   " ++ Sprintf format a)) w)
    /\ (forall e : goerror,
          logFail l "%s: %v" [VString (Sprintf format a); VError e] w
          = (tt, wrote SCrit (ops l)
                       (prefixed (prefixStack l)
                                 ("[failed]   " ++ Sprintf format a ++ ": " ++ emsg e))
                       w))
    /\ String.length "[started]  " = 11%nat
    /\ String.length "[finished] " = 11%nat
    /\ String.length "[failed]   " = 11%nat.
Proof.
  intros l format a w. repeat split.
  - apply logStart_wrote.
  - apply logFinish_wrote.
  - unfold logFail, bind, ret. rewrite Crit_wrote.
    simpl Sprintf. rewrite append_empty_r. reflexivity.
  - intros e. apply logFail_wrote.
Qed.

(* ------------------------------------------------------------------ *)
(** ** The prefix stack *)

(** C7. [PopPrefix] on an empty stack returns, leaves the stack empty
    and makes exactly one call to the backend, the debug message
    "popped from empty stack"; on a stack that is not empty it removes
    the entry pushed last and writes nothing. *)
Theorem PopPrefix_empty_or_last :
  forall (o : LoggerOps.t Sink) (n : Z) (w : World),
    PopPrefix {| self := {| ops := o; prefixStack := []; opSequenceNum := n |};
                 world := w |}
    = (tt, {| self := {| ops := o; prefixStack := []; opSequenceNum := n |};
              world := wrote SDebug o "popped from empty stack" w |})
    /\ calls (wrote SDebug o "popped from empty stack" w)
       = (calls w ++ [(SDebug, "popped from empty stack")])%list
    /\ (forall (st : list string) (x : string),
          PopPrefix {| self := {| ops := o; prefixStack := st ++ [x];
                                  opSequenceNum := n |};
                       world := w |}
          = (tt, {| self := {| ops := o; prefixStack := st; opSequenceNum := n |};
                    world := w |})).
Proof.
  intros o n w. repeat split.
  - rewrite PopPrefix_empty by reflexivity. reflexivity.
  - intros st x. rewrite PopPrefix_nonempty.
    + unfold setPrefixStack. simpl. rewrite removelast_last. reflexivity.
    + simpl. destruct st; discriminate.
Qed.

(* ------------------------------------------------------------------ *)
(** ** Construction *)

(** C5. [New] always returns a logger.  When opening syslog failed
    with [err], the logger returned has the console backend, an empty
    prefix stack and the counter at 0, and the one call made is the
    error-priority message "unable to open syslog: " followed by the
    text of [err], sent by the logger's own [Err] to the console
    backend it was just given; every later severity call on that
    logger reaches the console backend. *)
Theorem New_falls_back_to_console :
  forall (Stdout : LoggerOps.t Sink) (err : goerror) (w : World),
    let logger := {| ops := Stdout; prefixStack := []; opSequenceNum := 0 |} in
    New (inr err) Stdout w
    = (logger, wrote SErr Stdout ("unable to open syslog: " ++ emsg err) w)
    /\ New (inr err) Stdout w
       = (logger, snd (Err logger "unable to open syslog: %v" [VError err] w))
    /\ (forall (sev : Severity) (format : string) (a : list value) (w' : World),
          snd (logAt sev (fst (New (inr err) Stdout w)) format a w')
          = wrote sev Stdout (Sprintf format a) w')
    /\ (forall slogger : LoggerOps.t Sink,
          New (inl slogger) Stdout w
          = ({| ops := slogger; prefixStack := []; opSequenceNum := 0 |}, w)).
Proof.
  intros Stdout err w logger.
  assert (E : New (inr err) Stdout w
              = (logger, wrote SErr Stdout ("unable to open syslog: " ++ emsg err) w)).
  { unfold New, bind, ret. rewrite Err_wrote. simpl.
    rewrite append_empty_r. reflexivity. }
  repeat split.
  - exact E.
  - rewrite E. rewrite Err_wrote. simpl.
    rewrite append_empty_r. reflexivity.
  - intros sev format a w'. rewrite E, logAt_wrote. reflexivity.
Qed.

(* ------------------------------------------------------------------ *)
(** ** The operation wrappers *)

Lemma entered_stack (format : string) (a : list value) (h : Heap) :
  prefixStack (self (entered format a h))
  = (prefixStack (self h)
       ++ [opLabel (int_wrap (opSequenceNum (self h) + 1))])%list.
Proof. reflexivity. Qed.

Lemma entered_calls (format : string) (a : list value) (h : Heap) :
  calls (world (entered format a h))
  = (calls (world h)
       ++ [(SInfo, prefixed (prefixStack (self (entered format a h)))
                            ("[started]  " ++ Sprintf format a))])%list.
Proof. reflexivity. Qed.

Lemma left_stack (err : error) (format : string) (a : list value) (h : Heap) :
  prefixStack (self (left err format a h)) = removelast (prefixStack (self h)).
Proof. reflexivity. Qed.

Lemma left_counter (err : error) (format : string) (a : list value) (h : Heap) :
  opSequenceNum (self (left err format a h)) = opSequenceNum (self h).
Proof. reflexivity. Qed.

Lemma left_calls (err : error) (format : string) (a : list value) (h : Heap) :
  calls (world (left err format a h))
  = (calls (world h) ++ [verdict err (prefixStack (self h)) format a])%list.
Proof.
  unfold left, wrote. simpl. destruct (verdict _ _ _ _). reflexivity.
Qed.

(** [LogOp] around an action that hands the stack back. *)
Lemma LogOp_keepsStack (op : M error) (format : string) (a : list value)
      (h : Heap) :
  keepsStack op (entered format a h) ->
  LogOp op format a h
  = (fst (op (entered format a h)),
     left (fst (op (entered format a h))) format a (snd (op (entered format a h)))).
Proof.
  intros K. rewrite LogOp_entered. apply closing_left.
  rewrite K, entered_stack. destruct (prefixStack (self h)); discriminate.
Qed.

Lemma LogOp_keepsStack_stack (op : M error) (format : string) (a : list value)
      (h : Heap) :
  keepsStack op (entered format a h) ->
  prefixStack (self (snd (LogOp op format a h))) = prefixStack (self h).
Proof.
  intros K. rewrite (LogOp_keepsStack _ _ _ _ K). simpl snd.
  rewrite left_stack, K, entered_stack. apply removelast_last.
Qed.

Lemma LogOp_result (op : M error) (format : string)
      (a : list value) (h : Heap) :
  fst (LogOp op format a h) = fst (op (entered format a h)).
Proof. rewrite LogOp_entered. apply closing_result. Qed.

(** C10. What [LogOp] returns is what the wrapped action returned in
    the store [LogOp] called it in, whatever the backend's methods
    return for the start, failure and finish messages. *)
Theorem LogOp_returns_the_action_result :
  forall (op : M error) (format : string) (a : list value) (h : Heap),
    fst (LogOp op format a h) = fst (op (entered format a h)).
Proof.
  intros op format a h. apply LogOp_result.
Qed.

(** C2 (as the code has it). When the wrapped action returns the
    failure [e], [LogOp] returns [e] itself, and after the action's own
    calls it writes exactly one line of its own, the critical message
    made of the prefix stack, "[failed]", three spaces, the expanded
    message, a colon, a space and the text of [e], and no finish
    message (when the action left the stack empty, the deferred pop
    adds its debug message).  When the action also hands the prefix
    stack back as it found it, that line carries the operation's label
    and the stack on return is the stack before the call. *)
Theorem LogOp_failure :
  forall (op : M error) (format : string) (a : list value) (h h2 : Heap)
         (e : goerror),
    op (entered format a h) = (Some e, h2) ->
    let n := int_wrap (opSequenceNum (self h) + 1) in
    let h3 := snd (LogOp op format a h) in
    fst (LogOp op format a h) = Some e
    /\ calls (world h3)
       = (calls (world h2)
            ++ (SCrit, prefixed (prefixStack (self h2))
                                ("[failed]   " ++ Sprintf format a ++ ": " ++ emsg e))
            :: match prefixStack (self h2) with
               | [] => [(SDebug, "popped from empty stack")]
               | _ :: _ => []
               end)%list
    /\ (prefixStack (self h2) = prefixStack (self (entered format a h)) ->
        calls (world h3)
        = (calls (world h2)
             ++ [(SCrit, prefixed (prefixStack (self h) ++ [opLabel n])
                                  ("[failed]   " ++ Sprintf format a
                                     ++ ": " ++ emsg e))])%list
        /\ prefixStack (self h3) = prefixStack (self h)).
Proof.
  intros op format a h h2 e Hop n h3. subst h3.
  rewrite LogOp_entered, Hop. simpl fst; simpl snd.
  split; [apply closing_result|]. split.
  - destruct (prefixStack (self h2)) as [|p st] eqn:E.
    + rewrite closing_on_empty by exact E. simpl.
      rewrite <- app_assoc. reflexivity.
    + rewrite closing_left by (rewrite E; discriminate). simpl snd.
      rewrite left_calls, E. reflexivity.
  - intros Hst.
    rewrite closing_left
      by (rewrite Hst, entered_stack; destruct (prefixStack (self h)); discriminate).
    simpl snd. rewrite left_calls, left_stack, Hst, entered_stack.
    split; [reflexivity | apply removelast_last].
Qed.

(** C4 (as the code has it). Around an action that hands the prefix
    stack back as it found it, whether it succeeds or fails, the stack
    after [LogOp] is the stack before it.  When such an action is
    wrapped twice, it runs with both labels on the stack, the outer
    one before the inner one; the inner start and verdict lines carry
    both; the inner label is gone when the inner wrapper returns, while
    the outer one is still there; and the outer wrapper returns with
    the stack it was called with. *)
Theorem LogOp_restores_the_stack :
  forall (op : M error) (f1 : string) (a1 : list value) (f2 : string)
         (a2 : list value) (h : Heap),
    let h1 := entered f1 a1 h in
    let h12 := entered f2 a2 h1 in
    let n1 := int_wrap (opSequenceNum (self h) + 1) in
    let n2 := int_wrap (n1 + 1) in
    let both := (prefixStack (self h) ++ [opLabel n1; opLabel n2])%list in
    keepsStack op h1 ->
    keepsStack op h12 ->
    prefixStack (self (snd (LogOp op f1 a1 h))) = prefixStack (self h)
    /\ prefixStack (self h12) = both
    /\ calls (world h12)
       = (calls (world h1)
            ++ [(SInfo, prefixed both ("[started]  " ++ Sprintf f2 a2))])%list
    /\ LogOp (LogOp op f2 a2) f1 a1 h
       = (fst (op h12),
          left (fst (op h12)) f1 a1 (left (fst (op h12)) f2 a2 (snd (op h12))))
    /\ calls (world (left (fst (op h12)) f2 a2 (snd (op h12))))
       = (calls (world (snd (op h12)))
            ++ [verdict (fst (op h12)) both f2 a2])%list
    /\ prefixStack (self (left (fst (op h12)) f2 a2 (snd (op h12))))
       = (prefixStack (self h) ++ [opLabel n1])%list
    /\ prefixStack (self (snd (LogOp (LogOp op f2 a2) f1 a1 h)))
       = prefixStack (self h).
Proof.
  intros op f1 a1 f2 a2 h h1 h12 n1 n2 both K1 K12.
  assert (Eboth : prefixStack (self h12) = both).
  { subst h12 h1 both. rewrite !entered_stack, <- app_assoc. reflexivity. }
  assert (Kin : keepsStack (LogOp op f2 a2) h1).
  { unfold keepsStack. apply LogOp_keepsStack_stack. exact K12. }
  assert (Ein : LogOp op f2 a2 h1
                = (fst (op h12), left (fst (op h12)) f2 a2 (snd (op h12)))).
  { apply LogOp_keepsStack. exact K12. }
  assert (Eleft : prefixStack (self (left (fst (op h12)) f2 a2 (snd (op h12))))
                  = (prefixStack (self h) ++ [opLabel n1])%list).
  { rewrite left_stack, K12, Eboth. subst both.
    change [opLabel n1; opLabel n2] with ([opLabel n1] ++ [opLabel n2])%list.
    rewrite app_assoc. apply removelast_last. }
  repeat split.
  - apply LogOp_keepsStack_stack. exact K1.
  - exact Eboth.
  - rewrite <- Eboth. apply entered_calls.
  - rewrite (LogOp_keepsStack _ _ _ _ Kin). fold h1. rewrite Ein. reflexivity.
  - rewrite left_calls, K12, Eboth. reflexivity.
  - exact Eleft.
  - apply LogOp_keepsStack_stack. exact Kin.
Qed.

Lemma cmdLine_one (path : string) :
  Sprintf "executing: %v" [VString path] = "executing: " ++ path.
Proof. simpl. rewrite append_empty_r. reflexivity. Qed.

Lemma cmdLine_more (path : string) (rest : list string) :
  Sprintf "executing: %v %v" [VString path; VStrings rest]
  = "executing: " ++ path ++ " " ++ fmtSlice rest.
Proof. simpl. rewrite append_empty_r. reflexivity. Qed.

Lemma cmdAction_wrote (cmd : Cmd) (h : Heap) :
  cmdAction cmd h
  = (cmdFailure cmd,
     {| self := self h;
        world := wrote SDebug (ops (self h))
                       (prefixed (prefixStack (self h)) (cmdLine cmd))
                       (world h) |}).
Proof.
  unfold cmdAction, cmdFailure, cmdLine, bind, gets, lift.
  destruct (Z.leb_spec (Z.of_nat (List.length (Args cmd))) 1) as [L|L];
    rewrite Debug_wrote;
    destruct (Args cmd) as [|x [|y rest]]; simpl in L; try lia;
    rewrite ?cmdLine_one, ?cmdLine_more;
    destruct (ranErr (Run cmd)); reflexivity.
Qed.

Lemma cmdAction_keepsStack (cmd : Cmd) (h : Heap) : keepsStack (cmdAction cmd) h.
Proof. unfold keepsStack. rewrite cmdAction_wrote. reflexivity. Qed.

Lemma LogCmd_LogOp (cmd : Cmd) (format : string) (a : list value) :
  LogCmd (Sink := Sink) cmd format a = LogOp (cmdAction cmd) format a.
Proof. reflexivity. Qed.

Lemma cmdFailure_text (cmd : Cmd) (perr : goerror) :
  ranErr (Run cmd) = Some perr ->
  cmdFailure cmd
  = Some (errors_New (emsg perr ++ ": Stdout: " ++ Quote (ranStdout (Run cmd))
                        ++ " Stderr: " ++ Quote (ranStderr (Run cmd)))).
Proof.
  intros E. unfold cmdFailure. rewrite E. f_equal.
  change (Errorf ?f ?a) with (errors_New (Sprintf f a)). simpl.
  rewrite append_empty_r. reflexivity.
Qed.

(** C8. When the process run by [LogCmd] ends with the error [perr],
    [LogCmd] returns an error whose text is the text of [perr], then
    ": Stdout: " and the quoted captured standard output, then
    " Stderr: " and the quoted captured standard error; the calls it
    makes are the start message, the debug message naming the command
    and one critical "[failed]" message that ends with that same text.
    The text contains the process error, and contains "out" when
    the process wrote "out" to its standard output. *)
Theorem LogCmd_failure_carries_output :
  forall (cmd : Cmd) (format : string) (a : list value) (h : Heap)
         (perr : goerror),
    ranErr (Run cmd) = Some perr ->
    let text := emsg perr ++ ": Stdout: " ++ Quote (ranStdout (Run cmd))
                  ++ " Stderr: " ++ Quote (ranStderr (Run cmd)) in
    let st := (prefixStack (self h)
                 ++ [opLabel (int_wrap (opSequenceNum (self h) + 1))])%list in
    fst (LogCmd cmd format a h) = Some (errors_New text)
    /\ calls (world (snd (LogCmd cmd format a h)))
       = (calls (world h)
            ++ [(SInfo, prefixed st ("[started]  " ++ Sprintf format a));
                (SDebug, prefixed st (cmdLine cmd));
                (SCrit, prefixed st ("[failed]   " ++ Sprintf format a
                                       ++ ": " ++ text))])%list
    /\ contains (emsg perr) text
    /\ (ranStdout (Run cmd) = "out" -> contains "out" text).
Proof.
  intros cmd format a h perr E text st.
  pose proof (cmdFailure_text cmd perr E) as F. fold text in F.
  rewrite LogCmd_LogOp,
    (LogOp_keepsStack _ _ _ _ (cmdAction_keepsStack cmd (entered format a h))).
  rewrite cmdAction_wrote, F. simpl fst; simpl snd.
  repeat split.
  - rewrite left_calls. simpl prefixStack. fold st. unfold wrote. simpl calls.
    rewrite <- !app_assoc. reflexivity.
  - exists "", (": Stdout: " ++ Quote (ranStdout (Run cmd))
                  ++ " Stderr: " ++ Quote (ranStderr (Run cmd))).
    reflexivity.
  - intros O. subst text. rewrite O.
    exists (emsg perr ++ ": Stdout: " ++ String dquote ""),
           (String dquote (" Stderr: " ++ Quote (ranStderr (Run cmd)))).
    rewrite !append_assoc. reflexivity.
Qed.

(* ------------------------------------------------------------------ *)
(** ** Sequences of pushes and pops *)

Lemma setPrefixStack_same (h : Heap) : setPrefixStack (prefixStack (self h)) h = h.
Proof. destruct h as [[o st n] w]. reflexivity. Qed.

Lemma setPrefixStack_twice (st st' : list string) (h : Heap) :
  setPrefixStack st (setPrefixStack st' h) = setPrefixStack st h.
Proof. reflexivity. Qed.

Lemma safe_bounds_unmatched (cs : list StackCall) :
  forall depth : nat, safe cs depth = true -> (unmatchedPops cs <= depth)%nat.
Proof.
  induction cs as [|[format a|] cs IH]; intros depth Hs; simpl in *.
  - lia.
  - specialize (IH _ Hs). lia.
  - destruct depth as [|depth]; [discriminate|]. specialize (IH _ Hs). lia.
Qed.

Lemma safe_from_counts (cs : list StackCall) :
  forall depth : nat,
    (forall k : nat,
        (countPops (firstn k cs) <= depth + countPushes (firstn k cs))%nat) ->
    safe cs depth = true.
Proof.
  induction cs as [|[format a|] cs IH]; intros depth C; simpl.
  - reflexivity.
  - apply IH. intros k. specialize (C (S k)). simpl in C. lia.
  - destruct depth as [|depth].
    + specialize (C 1%nat). simpl in C. lia.
    + apply IH. intros k. specialize (C (S k)). simpl in C. lia.
Qed.

Lemma neverOverPops_counts (cs : list StackCall) :
  neverOverPops cs = true ->
  forall k : nat, (countPops (firstn k cs) <= countPushes (firstn k cs))%nat.
Proof.
  unfold neverOverPops. rewrite forallb_forall. intros F k.
  destruct (Nat.le_gt_cases k (List.length cs)) as [L|L].
  - apply Nat.leb_le, F, in_seq. lia.
  - rewrite firstn_all2 by lia.
    specialize (F (List.length cs)). rewrite firstn_all in F.
    apply Nat.leb_le, F, in_seq. lia.
Qed.

Lemma neverOverPops_safe (cs : list StackCall) (depth : nat) :
  neverOverPops cs = true -> safe cs depth = true.
Proof.
  intros F. apply safe_from_counts. intros k.
  pose proof (neverOverPops_counts cs F k). lia.
Qed.

(** The stack a safe sequence leaves: what its unanswered pops spare
    of the stack it started on, then its survivors. *)
Lemma runStackCalls_safe (cs : list StackCall) :
  forall h : Heap,
    safe cs (List.length (prefixStack (self h))) = true ->
    runStackCalls cs h
    = (tt, setPrefixStack
             (firstn (List.length (prefixStack (self h)) - unmatchedPops cs)
                     (prefixStack (self h)) ++ survivors cs)%list h).
Proof.
  induction cs as [|[format a|] cs IH]; intros h Hs; simpl in Hs.
  - simpl. rewrite Nat.sub_0_r, firstn_all, app_nil_r, setPrefixStack_same.
    reflexivity.
  - simpl runStackCalls. unfold bind, PushPrefix, modify.
    rewrite IH; simpl self; simpl prefixStack;
      rewrite ?length_app, ?Nat.add_1_r; simpl List.length; [|exact Hs].
    rewrite setPrefixStack_twice. f_equal. f_equal.
    simpl unmatchedPops; simpl survivors.
    destruct (unmatchedPops cs) as [|u] eqn:U; simpl Nat.pred.
    + rewrite !Nat.sub_0_r, firstn_all.
      rewrite firstn_all2 by (rewrite length_app; simpl; lia).
      rewrite <- app_assoc. reflexivity.
    + rewrite firstn_app.
      replace (S (List.length (prefixStack (self h))) - S u
               - List.length (prefixStack (self h)))%nat with O by lia.
      simpl. rewrite app_nil_r. reflexivity.
  - simpl runStackCalls. unfold bind.
    destruct (prefixStack (self h)) as [|p st] eqn:E; [discriminate|].
    rewrite PopPrefix_nonempty by (rewrite E; discriminate).
    simpl List.length in Hs.
    rewrite IH; simpl self; simpl prefixStack; rewrite E;
      rewrite removelast_firstn_len; simpl List.length; simpl Nat.pred;
      [|rewrite firstn_length_le by (simpl; lia); exact Hs].
    rewrite setPrefixStack_twice. f_equal. f_equal.
    rewrite firstn_length_le by (simpl; lia).
    rewrite firstn_firstn. f_equal. f_equal. simpl unmatchedPops. lia.
Qed.

Lemma survivors_count (cs : list StackCall) :
  (List.length (survivors cs) + countPops cs
   = countPushes cs + unmatchedPops cs)%nat.
Proof.
  induction cs as [|[format a|] cs IH]; simpl.
  - reflexivity.
  - destruct (unmatchedPops cs); simpl; lia.
  - lia.
Qed.

(** C9. A sequence of [PushPrefix] and [PopPrefix] calls of which no
    initial segment holds more pops than pushes changes nothing but
    the prefix stack, and leaves on it, after the entries it found
    there, the labels it pushed less the ones it popped, in push
    order, as many as there were pushes more than pops; on a logger
    whose stack was empty these are the whole stack. *)
Theorem balanced_calls_leave_survivors :
  forall (cs : list StackCall) (h : Heap),
    neverOverPops cs = true ->
    runStackCalls cs h
    = (tt, setPrefixStack (prefixStack (self h) ++ survivors cs)%list h)
    /\ List.length (survivors cs) = (countPushes cs - countPops cs)%nat.
Proof.
  intros cs h F.
  pose proof (safe_bounds_unmatched cs 0 (neverOverPops_safe cs 0 F)) as B.
  split.
  - rewrite runStackCalls_safe by (apply neverOverPops_safe; exact F).
    replace (unmatchedPops cs) with O by lia.
    rewrite Nat.sub_0_r, firstn_all. reflexivity.
  - pose proof (survivors_count cs). lia.
Qed.

(* ------------------------------------------------------------------ *)
(** ** Operation identifiers *)

Lemma int_wrap_small (z : Z) : int_min <= z <= int_max -> int_wrap z = z.
Proof.
  unfold int_min, int_max, int_wrap. intros R.
  rewrite Z.mod_small; lia.
Qed.

Lemma idsFrom_S (n : Z) (count : nat) :
  idsFrom n (S count) = fmtHex (n + 1) :: idsFrom (n + 1) count.
Proof.
  unfold idsFrom. simpl. f_equal.
  rewrite <- seq_shift, map_map. apply map_ext. intros i.
  f_equal. lia.
Qed.

Lemma idsFrom_app (n : Z) (c1 c2 : nat) :
  idsFrom n (c1 + c2) = (idsFrom n c1 ++ idsFrom (n + Z.of_nat c1) c2)%list.
Proof.
  revert n; induction c1 as [|c1 IH]; intros n.
  - simpl. f_equal. lia.
  - change (S c1 + c2)%nat with (S (c1 + c2)).
    rewrite !idsFrom_S, IH. simpl. do 3 f_equal. lia.
Qed.

Lemma runJob_JobOp (format : string) (a : list value) (body : list Job)
      (result : error) :
  runJob (Sink := Sink) (JobOp format a body result)
  = LogOp (runJobs body ;; ret result) format a.
Proof. reflexivity. Qed.

Lemma invocations_JobOp (format : string) (a : list value) (body : list Job)
      (result : error) :
  invocations (JobOp format a body result) = S (invocationsAll body).
Proof. reflexivity. Qed.

Lemma narrate_JobOp (stack : list string) (format : string) (a : list value)
      (body : list Job) (result : error) (id : string) (ids : list string) :
  narrate stack (JobOp format a body result) (id :: ids)
  = (let st := (stack ++ [idLabel id])%list in
     ((SInfo, prefixed st ("[started]  " ++ Sprintf format a))
        :: fst (narrateAll st body ids) ++ [verdict result st format a],
      snd (narrateAll st body ids)))%list.
Proof.
  change (narrate stack (JobOp format a body result) (id :: ids))
    with (let st := (stack ++ [idLabel id])%list in
          let (inner, rest) := narrateAll st body ids in
          (((SInfo, prefixed st ("[started]  " ++ Sprintf format a)) :: inner
              ++ [verdict result st format a])%list, rest)).
  simpl.
  destruct (narrateAll (stack ++ [idLabel id]) body ids). reflexivity.
Qed.

Lemma narrateAll_cons (stack : list string) (j : Job) (js : list Job)
      (ids : list string) :
  narrateAll stack (j :: js) ids
  = ((fst (narrate stack j ids)
        ++ fst (narrateAll stack js (snd (narrate stack j ids))))%list,
     snd (narrateAll stack js (snd (narrate stack j ids)))).
Proof.
  simpl. destruct (narrate stack j ids) as [here ids1]. simpl.
  destruct (narrateAll stack js ids1). reflexivity.
Qed.

Lemma runJobs_cons (j : Job) (js : list Job) (h : Heap) :
  runJobs (j :: js) h = runJobs js (snd (runJob j h)).
Proof.
  simpl. unfold bind. destruct (runJob j h). reflexivity.
Qed.

Lemma narratedAll_of_each (js : list Job) :
  Forall (narrated (Sink := Sink)) js -> narratedAll (Sink := Sink) js.
Proof.
  induction 1 as [|j js Hj _ IH]; intros h rest Hlo Hhi.
  - simpl. rewrite Z.add_0_r, app_nil_r. repeat split; reflexivity.
  - change (invocationsAll (j :: js))
      with (invocations j + invocationsAll js)%nat in *.
    rewrite Nat2Z.inj_add in Hhi.
    rewrite runJobs_cons, narrateAll_cons, idsFrom_app, <- app_assoc.
    destruct (Hj h (idsFrom (opSequenceNum (self h) + Z.of_nat (invocations j))
                            (invocationsAll js) ++ rest)%list Hlo)
      as (Hn & Hst & Hrest & Hcalls); [lia|].
    rewrite Hrest. simpl fst; simpl snd.
    destruct (IH (snd (runJob j h)) rest) as (Hn' & Hst' & Hrest' & Hcalls');
      rewrite ?Hn; [lia | lia |].
    rewrite Hn, Hst in *.
    repeat split.
    + rewrite Hn', Nat2Z.inj_add. lia.
    + exact Hst'.
    + exact Hrest'.
    + rewrite Hcalls', Hcalls, <- app_assoc. reflexivity.
Qed.

Lemma narrated_JobOp (format : string) (a : list value) (body : list Job)
      (result : error) :
  narratedAll (Sink := Sink) body ->
  narrated (Sink := Sink) (JobOp format a body result).
Proof.
  intros HB h rest Hlo Hhi.
  rewrite invocations_JobOp in *. rewrite Nat2Z.inj_succ in Hhi.
  rewrite idsFrom_S, <- app_comm_cons, narrate_JobOp. cbv zeta.
  assert (Ew : int_wrap (opSequenceNum (self h) + 1) = opSequenceNum (self h) + 1).
  { apply int_wrap_small. unfold int_min. lia. }
  pose (h1 := entered format a h).
  assert (En1 : opSequenceNum (self h1) = opSequenceNum (self h) + 1).
  { unfold h1. simpl. exact Ew. }
  assert (Est1 : prefixStack (self h1)
                 = (prefixStack (self h)
                      ++ [idLabel (fmtHex (opSequenceNum (self h) + 1))])%list).
  { unfold h1. rewrite entered_stack, Ew. reflexivity. }
  assert (Ecalls1 : calls (world h1)
                    = (calls (world h)
                         ++ [(SInfo, prefixed (prefixStack (self h1))
                                              ("[started]  " ++ Sprintf format a))])%list).
  { unfold h1. apply entered_calls. }
  destruct (HB h1 rest) as (Hn & Hst & Hrest & Hcalls);
    rewrite ?En1; [lia | lia |].
  rewrite En1 in Hn, Hrest, Hcalls. rewrite Est1 in Hrest, Hcalls, Ecalls1.
  assert (Eop : (runJobs body ;; ret result) h1
                = (result, snd (runJobs body h1))).
  { unfold bind, ret. destruct (runJobs body h1). reflexivity. }
  assert (K : keepsStack (runJobs body ;; ret result) h1).
  { unfold keepsStack. rewrite Eop. exact Hst. }
  rewrite runJob_JobOp, (LogOp_keepsStack _ _ _ _ K).
  change (entered format a h) with h1. rewrite Eop. cbn [fst snd].
  repeat split.
  - rewrite left_counter, Hn. lia.
  - rewrite left_stack, Hst, Est1. apply removelast_last.
  - exact Hrest.
  - rewrite left_calls, Hcalls, Hst, Est1, Ecalls1, <- !app_assoc. reflexivity.
Qed.

Lemma narrated_JobCmd (cmd : Cmd) (format : string) (a : list value) :
  narrated (Sink := Sink) (JobCmd cmd format a).
Proof.
  intros h rest Hlo Hhi. simpl invocations in *.
  assert (Ew : int_wrap (opSequenceNum (self h) + 1) = opSequenceNum (self h) + 1).
  { apply int_wrap_small. unfold int_min. lia. }
  change (runJob (JobCmd cmd format a))
    with (LogOp (Sink := Sink) (cmdAction cmd) format a).
  rewrite (LogOp_keepsStack _ _ _ _ (cmdAction_keepsStack cmd (entered format a h))).
  rewrite cmdAction_wrote. cbn [fst snd].
  rewrite idsFrom_S, <- app_comm_cons.
  repeat split.
  - simpl. rewrite Ew. lia.
  - rewrite left_stack. simpl. apply removelast_last.
  - rewrite left_calls. simpl. rewrite Ew, <- !app_assoc. reflexivity.
Qed.

Lemma every_job_narrated (j : Job) : narrated (Sink := Sink) j.
Proof.
  induction j as [format a body result Hbody | cmd format a]
    using Job_nested_ind.
  - apply narrated_JobOp, narratedAll_of_each, Hbody.
  - apply narrated_JobCmd.
Qed.

Lemma every_run_narrated (js : list Job) : narratedAll (Sink := Sink) js.
Proof.
  apply narratedAll_of_each, Forall_forall. intros j _. apply every_job_narrated.
Qed.

Lemma idsFrom_zero (count : nat) : idsFrom 0 count = map fmtHex (upTo count).
Proof. unfold idsFrom, upTo. rewrite map_map. reflexivity. Qed.

(** Reading an identifier back gives the counter value it renders. *)
Lemma fmtHex_read_back (i : nat) :
  (0 < i)%nat ->
  HexString.Raw.to_N (fmtHex (Z.of_nat i)) 0%N = N.of_nat i.
Proof.
  intros Hi. destruct i as [|i]; [lia|].
  simpl Z.of_nat. unfold fmtHex.
  rewrite HexString.Raw.to_N_of_pos. reflexivity.
Qed.

Lemma identifiers_differ (count : nat) : NoDup (map fmtHex (upTo count)).
Proof.
  apply (NoDup_map_inv (fun id => HexString.Raw.to_N id 0%N)).
  unfold upTo. rewrite !map_map.
  rewrite (map_ext_in _ N.of_nat).
  - apply Injective_map_NoDup; [|apply seq_NoDup].
    intros x y E. apply Nat2N.inj. exact E.
  - intros i Hi. apply in_seq in Hi. apply fmtHex_read_back. lia.
Qed.

(** C3. On a logger whose counter is 0, a run of the wrappers, nested
    or in sequence, that makes [N] invocations (with [N] within the
    range of [int]) writes the lines in which the invocations carry,
    in the order they start, the lowercase hexadecimal renderings of
    [1 .. N]; these are all used and pairwise different, and the
    counter ends at [N].  Each invocation first sets the counter to
    its successor, then pushes the label made of that value, and runs
    its action in the store so reached. *)
Theorem operation_identifiers_count_up :
  forall (js : list Job) (o : LoggerOps.t Sink) (w : World),
    Z.of_nat (invocationsAll js) <= int_max ->
    let N := invocationsAll js in
    let h0 := {| self := {| ops := o; prefixStack := []; opSequenceNum := 0 |};
                 world := w |} in
    let ids := map fmtHex (upTo N) in
    calls (world (snd (runJobs js h0)))
    = (calls w ++ fst (narrateAll [] js ids))%list
    /\ snd (narrateAll [] js ids) = []
    /\ opSequenceNum (self (snd (runJobs js h0))) = Z.of_nat N
    /\ NoDup ids
    /\ (forall (op : M error) (format : string) (a : list value) (h : Heap),
          LogOp op format a h
          = closing (fst (op (entered format a h))) format a
                    (snd (op (entered format a h)))
          /\ opSequenceNum (self (entered format a h))
             = int_wrap (opSequenceNum (self h) + 1)
          /\ prefixStack (self (entered format a h))
             = (prefixStack (self h)
                  ++ [idLabel (fmtHex (int_wrap (opSequenceNum (self h) + 1)))])%list).
Proof.
  intros js o w Hhi N h0 ids.
  destruct (every_run_narrated js h0 []) as (Hn & _ & Hrest & Hcalls);
    [simpl; lia | simpl; exact Hhi |].
  simpl opSequenceNum in *. simpl prefixStack in *.
  rewrite idsFrom_zero, app_nil_r in Hrest, Hcalls.
  split; [exact Hcalls|].
  split; [exact Hrest|].
  split; [rewrite Hn; reflexivity|].
  split; [apply identifiers_differ|].
  intros op format a h.
  split; [apply LogOp_entered|].
  split; reflexivity.
Qed.

End Facts.

(** The lines of a nested run, as the console backend receives them. *)
Example nested_run_on_console :
  calls (world (snd (Sample.runJobs Sample.threeJobs (Sample.start Sample.fresh))))
  = [(SInfo, "op(1): [started]  outer");
     (SInfo, "op(1): op(2): [started]  inner 7");
     (SInfo, "op(1): op(2): [finished] inner 7");
     (SCrit, "op(1): [failed]   outer: boom");
     (SInfo, "op(3): [started]  run");
     (SDebug, "op(3): executing: /bin/false [-v]");
     (SCrit, "op(3): [failed]   run: exit status 1: Stdout: "
               ++ String dquote ("out" ++ String dquote
                    (" Stderr: " ++ String dquote (String dquote EmptyString))))].
Proof. vm_compute. reflexivity. Qed.

(** On the backend whose writes all fail, [LogOp] around an action
    that succeeds still returns no error. *)
Example LogOp_on_broken_backend :
  fst (Sample.LogOp Sample.succeeding "work" [] (Sample.start Sample.broken)) = None.
Proof. reflexivity. Qed.

(* ------------------------------------------------------------------ *)
(** ** The theorems at concrete inputs *)

(** [LogOp_failure] at an action that fails and leaves the logger
    alone. *)
Lemma LogOp_failure_witness :
  fst (Sample.LogOp Sample.failing "fetch %s" [VString "config"]
                    (Sample.start Sample.fresh))
  = Some Sample.boom
  /\ calls (world (snd (Sample.LogOp Sample.failing "fetch %s" [VString "config"]
                                     (Sample.start Sample.fresh))))
     = [(SInfo, "op(1): [started]  fetch config");
        (SCrit, "op(1): [failed]   fetch config: boom")]
  /\ prefixStack (self (snd (Sample.LogOp Sample.failing "fetch %s"
                                          [VString "config"]
                                          (Sample.start Sample.fresh))))
     = [].
Proof.
  pose proof (LogOp_failure (lib := sampleLib) (Sink := Sample.Sink)
                Sample.failing "fetch %s" [VString "config"]
                (Sample.start Sample.fresh)
                (Sample.entered "fetch %s" [VString "config"]
                                (Sample.start Sample.fresh))
                Sample.boom eq_refl)
    as (H1 & _ & H3).
  exact (conj H1 (H3 eq_refl)).
Defined.

(** C2, as first stated, fails on an action that pushes a prefix and
    leaves it there: the action fails, [LogOp] returns its failure, and
    the label "op(1)" is still on the stack, which was empty before. *)
Lemma LogOp_failure_label_stays :
  fst (Sample.LogOp Sample.pushesAndFails "work" [] (Sample.start Sample.fresh))
  = Some Sample.boom
  /\ prefixStack (self (snd (Sample.LogOp Sample.pushesAndFails "work" []
                                          (Sample.start Sample.fresh))))
     = ["op(1)"]
  /\ prefixStack (self (snd (Sample.LogOp Sample.pushesAndFails "work" []
                                          (Sample.start Sample.fresh))))
     <> prefixStack (self (Sample.start Sample.fresh)).
Proof.
  repeat split; try reflexivity. vm_compute. discriminate.
Qed.

(** [LogOp_restores_the_stack] at an action that succeeds and leaves
    the logger alone, wrapped once and twice on a logger that carries
    the prefix "boot". *)
Lemma LogOp_restores_the_stack_witness :
  prefixStack (self (snd (Sample.LogOp Sample.succeeding "one" []
                                       (Sample.start Sample.booted))))
  = ["boot"]
  /\ prefixStack (self (Sample.entered "two" []
                          (Sample.entered "one" [] (Sample.start Sample.booted))))
     = ["boot"; "op(1)"; "op(2)"]
  /\ calls (world (snd (Sample.LogOp (Sample.LogOp Sample.succeeding "two" [])
                                     "one" [] (Sample.start Sample.booted))))
     = [(SInfo, "boot: op(1): [started]  one");
        (SInfo, "boot: op(1): op(2): [started]  two");
        (SInfo, "boot: op(1): op(2): [finished] two");
        (SInfo, "boot: op(1): [finished] one")]
  /\ prefixStack (self (snd (Sample.LogOp (Sample.LogOp Sample.succeeding "two" [])
                                          "one" [] (Sample.start Sample.booted))))
     = ["boot"].
Proof.
  pose proof (LogOp_restores_the_stack (lib := sampleLib)
                (Sink := Sample.Sink) Sample.succeeding "one" [] "two" []
                (Sample.start Sample.booted) eq_refl eq_refl)
    as (H1 & H2 & _ & H4 & _ & _ & H7).
  exact (conj H1 (conj H2
           (conj (f_equal (fun r => calls (world (snd r))) H4) H7))).
Defined.

(** C4, as first stated, fails on an action that pops a prefix it did
    not push: the stack held "boot" before the call and is empty
    after it. *)
Lemma LogOp_stack_not_restored :
  prefixStack (self (Sample.start Sample.booted)) = ["boot"]
  /\ fst (Sample.LogOp Sample.popsAndSucceeds "work" [] (Sample.start Sample.booted))
     = None
  /\ prefixStack (self (snd (Sample.LogOp Sample.popsAndSucceeds "work" []
                                          (Sample.start Sample.booted))))
     = []
  /\ prefixStack (self (snd (Sample.LogOp Sample.popsAndSucceeds "work" []
                                          (Sample.start Sample.booted))))
     <> prefixStack (self (Sample.start Sample.booted)).
Proof.
  repeat split; try reflexivity. vm_compute. discriminate.
Qed.

(** C6, as first stated, fails on the start message: two spaces, not
    one, stand between "[started]" and the message. *)
Lemma logStart_two_spaces :
  calls (snd (Sample.logStart Sample.fresh "msg" [] Sample.quiet))
  = [(SInfo, "[started]  msg")]
  /\ calls (snd (Sample.logStart Sample.fresh "msg" [] Sample.quiet))
     <> [(SInfo, "[started] " ++ Sprintf (lib := sampleLib) "msg" [])].
Proof.
  split; [reflexivity | vm_compute; discriminate].
Qed.

(** [LogCmd_failure_carries_output] at a command that writes "out"
    and fails. *)
Lemma LogCmd_failure_witness :
  ranErr (Run Sample.falseCmd) = Some (errors_New "exit status 1")
  /\ fst (Sample.LogCmd Sample.falseCmd "run" [] (Sample.start Sample.fresh))
     = Some (errors_New
               ("exit status 1: Stdout: "
                  ++ String dquote ("out" ++ String dquote
                       (" Stderr: " ++ String dquote (String dquote EmptyString)))))
  /\ contains "out"
              ("exit status 1: Stdout: "
                 ++ String dquote ("out" ++ String dquote
                      (" Stderr: " ++ String dquote (String dquote EmptyString)))).
Proof.
  pose proof (LogCmd_failure_carries_output (lib := sampleLib)
                (Sink := Sample.Sink) Sample.falseCmd "run" [] (Sample.start Sample.fresh)
                (errors_New "exit status 1") eq_refl)
    as (H1 & _ & _ & H4).
  exact (conj eq_refl (conj H1 (H4 eq_refl))).
Defined.

(** [balanced_calls_leave_survivors] at two pushes, a pop and a push. *)
Lemma balanced_calls_witness :
  neverOverPops Sample.fourCalls = true
  /\ prefixStack (self (snd (Sample.runStackCalls Sample.fourCalls
                                                  (Sample.start Sample.fresh))))
     = ["a"; "c"].
Proof.
  split; [reflexivity|].
  exact (f_equal (fun r => prefixStack (self (snd r)))
           (proj1 (balanced_calls_leave_survivors
                     (lib := sampleLib) (Sink := Sample.Sink)
                     Sample.fourCalls (Sample.start Sample.fresh) eq_refl))).
Defined.

(** [operation_identifiers_count_up] at a run of three invocations. *)
Lemma operation_identifiers_witness :
  Z.of_nat (invocationsAll Sample.threeJobs) <= int_max
  /\ opSequenceNum (self (snd (Sample.runJobs Sample.threeJobs
                                              (Sample.start Sample.fresh))))
     = 3
  /\ NoDup ["1"; "2"; "3"]
  /\ calls (world (snd (Sample.runJobs Sample.threeJobs (Sample.start Sample.fresh))))
     = fst (narrateAll (lib := sampleLib) []
                       Sample.threeJobs ["1"; "2"; "3"]).
Proof.
  assert (B : Z.of_nat (invocationsAll Sample.threeJobs) <= int_max)
    by (vm_compute; discriminate).
  pose proof (operation_identifiers_count_up (lib := sampleLib)
                (Sink := Sample.Sink) Sample.threeJobs consoleOps Sample.quiet B)
    as (H1 & _ & H3 & H4 & _).
  exact (conj B (conj H3 (conj H4 H1))).
Defined.

(* ------------------------------------------------------------------ *)
(** ** Further facts about the package *)

Section MoreFacts.

Context {lib : FmtLib} {Sink : Type}.

Local Abbreviation Logger := (Logger Sink).
Local Abbreviation World := (World Sink).
Local Abbreviation Heap := (Heap Sink).
Local Abbreviation IO := (IO Sink).
Local Abbreviation M := (M Sink).

Lemma prefixed_last (st : list string) (p text : string) :
  prefixed (st ++ [p]) text = prefixed st (p ++ ": " ++ text).
Proof.
  unfold prefixed. rewrite fold_right_app. reflexivity.
Qed.

(** X2. A [PushPrefix] directly followed by a [PopPrefix] leaves the
    store exactly as it was, and writes nothing. *)
Theorem push_pop_round_trip :
  forall (format : string) (a : list value) (h : Heap),
    (PushPrefix format a ;; PopPrefix) h = (tt, h).
Proof.
  intros format a h. unfold bind, PushPrefix, modify.
  rewrite PopPrefix_nonempty.
  - rewrite setPrefixStack_twice. simpl prefixStack.
    rewrite removelast_last, setPrefixStack_same. reflexivity.
  - simpl. destruct (prefixStack (self h)); discriminate.
Qed.

(** X3. After a [PushPrefix], every message is composed as before the
    push, with the pushed label, a colon and a space put directly in
    front of the expanded text: the label pushed last is the
    innermost one. *)
Theorem pushed_label_is_innermost :
  forall (label : string) (la : list value) (format : string)
         (a : list value) (h : Heap),
    sprintf (self (snd (PushPrefix label la h))) format a
    = prefixed (prefixStack (self h))
               (Sprintf label la ++ ": " ++ Sprintf format a)
    /\ sprintf (self (snd (PushPrefix label la h))) format a
       = sprintf (self h) "%s: %s"
                 [VString (Sprintf label la); VString (Sprintf format a)].
Proof.
  intros label la format a h.
  rewrite !sprintf_prefixed. simpl prefixStack. rewrite prefixed_last.
  split; [reflexivity|].
  simpl Sprintf. rewrite append_empty_r. reflexivity.
Qed.

Lemma runStackCalls_cons_push (format : string) (a : list value)
      (cs : list StackCall) (h : Heap) :
  runStackCalls (CallPush format a :: cs) h
  = runStackCalls cs
      (setPrefixStack (prefixStack (self h) ++ [Sprintf format a])%list h).
Proof. reflexivity. Qed.

Lemma runStackCalls_cons_pop (cs : list StackCall) (h : Heap) :
  runStackCalls (CallPop :: cs) h = runStackCalls cs (snd (PopPrefix h)).
Proof.
  simpl. unfold bind. destruct (PopPrefix h). reflexivity.
Qed.

(** X4. Any sequence of [PushPrefix] and [PopPrefix] calls, balanced
    or not: a pop that meets an empty stack changes nothing and writes
    one debug message, "popped from empty stack"; the final stack is
    what the unanswered pops spare of the initial one, followed by the
    surviving labels; the debug messages are as many as the unanswered
    pops exceed the initial depth; the counter and the backend are
    never touched. *)
Theorem stack_calls_in_general :
  forall (cs : list StackCall) (h : Heap),
    let st := prefixStack (self h) in
    let h' := snd (runStackCalls cs h) in
    prefixStack (self h')
    = (firstn (List.length st - unmatchedPops cs) st ++ survivors cs)%list
    /\ calls (world h')
       = (calls (world h)
            ++ repeat (SDebug, "popped from empty stack")
                      (unmatchedPops cs - List.length st))%list
    /\ opSequenceNum (self h') = opSequenceNum (self h)
    /\ ops (self h') = ops (self h).
Proof.
  induction cs as [|[format a|] cs IH]; intros h; cbv zeta.
  - simpl. rewrite Nat.sub_0_r, firstn_all, !app_nil_r. repeat split.
  - rewrite runStackCalls_cons_push.
    destruct (IH (setPrefixStack (prefixStack (self h) ++ [Sprintf format a])%list h))
      as (Hst & Hcalls & Hn & Hops).
    cbv zeta in *. simpl self in *. simpl prefixStack in *. simpl world in *.
    simpl opSequenceNum in *. simpl ops in *.
    rewrite length_app in *. simpl List.length in *.
    rewrite Hst, Hcalls, Hn, Hops.
    simpl unmatchedPops; simpl survivors.
    destruct (unmatchedPops cs) as [|u]; simpl Nat.pred.
    + repeat split.
      * rewrite Nat.sub_0_r, Nat.sub_0_r, firstn_all.
        rewrite firstn_all2 by (rewrite length_app; simpl; lia).
        rewrite <- app_assoc. reflexivity.
    + repeat split.
      * rewrite firstn_app.
        replace (List.length (prefixStack (self h)) + 1 - S u
                 - List.length (prefixStack (self h)))%nat with O by lia.
        simpl. rewrite app_nil_r. f_equal. f_equal. lia.
      * f_equal. f_equal. lia.
  - rewrite runStackCalls_cons_pop.
    destruct (prefixStack (self h)) as [|p st] eqn:E.
    + rewrite PopPrefix_empty by exact E. simpl snd.
      destruct (IH {| self := self h;
                      world := wrote SDebug (ops (self h))
                                     "popped from empty stack" (world h) |})
        as (Hst & Hcalls & Hn & Hops).
      cbv zeta in *. simpl self in *. simpl world in *. rewrite E in *.
      rewrite Hst, Hcalls, Hn, Hops. simpl. rewrite ?firstn_nil.
      repeat split.
      rewrite ?Nat.sub_0_r, <- app_assoc. reflexivity.
    + rewrite PopPrefix_nonempty by (rewrite E; discriminate). simpl snd.
      destruct (IH (setPrefixStack (removelast (prefixStack (self h))) h))
        as (Hst & Hcalls & Hn & Hops).
      cbv zeta in *. simpl self in *. simpl prefixStack in *. simpl world in *.
      simpl opSequenceNum in *. simpl ops in *.
      rewrite Hst, Hcalls, Hn, Hops, E.
      rewrite removelast_firstn_len, firstn_firstn.
      rewrite firstn_length_le by lia.
      simpl List.length. simpl Nat.pred. simpl unmatchedPops. simpl survivors.
      repeat split.
      * f_equal. f_equal. lia.
Qed.

(** X5. [LogOp] around any action whatsoever.  With [err] the result
    of the action and [h2] the store it leaves: [LogOp] returns [err];
    it then writes one verdict line under the stack of [h2], critical
    "[failed]" for a failure and informational "[finished]"
    otherwise, and removes the last entry of that stack, whichever it
    is; when the action left the stack empty, the deferred pop writes
    the debug message "popped from empty stack" instead.  The counter
    and the backend are as the action left them. *)
Theorem LogOp_in_general :
  forall (op : M error) (format : string) (a : list value) (h : Heap),
    let err := fst (op (entered format a h)) in
    let h2 := snd (op (entered format a h)) in
    let h3 := snd (LogOp op format a h) in
    fst (LogOp op format a h) = err
    /\ prefixStack (self h3) = removelast (prefixStack (self h2))
    /\ calls (world h3)
       = (calls (world h2)
            ++ verdict err (prefixStack (self h2)) format a
            :: match prefixStack (self h2) with
               | [] => [(SDebug, "popped from empty stack")]
               | _ :: _ => []
               end)%list
    /\ opSequenceNum (self h3) = opSequenceNum (self h2)
    /\ ops (self h3) = ops (self h2).
Proof.
  intros op format a h err h2 h3. subst h3. rewrite LogOp_entered.
  fold err h2.
  destruct (prefixStack (self h2)) as [|p st] eqn:E.
  - rewrite closing_on_empty by exact E. simpl.
    destruct (verdict err [] format a). rewrite <- app_assoc.
    repeat split. exact E.
  - rewrite closing_left by (rewrite E; discriminate). simpl fst; simpl snd.
    rewrite left_stack, left_calls, E. repeat split.
Qed.

(** X6. When the wrapped action succeeds and hands the prefix stack
    back as it found it, [LogOp] returns no error; after the action's
    own calls it makes exactly one more call, the informational
    message made of the stack with the operation's label, "[finished]",
    one space and the expanded message; the stack on return is the
    stack before the call. *)
Theorem LogOp_success :
  forall (op : M error) (format : string) (a : list value) (h h2 : Heap),
    op (entered format a h) = (None, h2) ->
    prefixStack (self h2) = prefixStack (self (entered format a h)) ->
    let n := int_wrap (opSequenceNum (self h) + 1) in
    let h3 := snd (LogOp op format a h) in
    fst (LogOp op format a h) = None
    /\ calls (world h3)
       = (calls (world h2)
            ++ [(SInfo, prefixed (prefixStack (self h) ++ [opLabel n])
                                 ("[finished] " ++ Sprintf format a))])%list
    /\ prefixStack (self h3) = prefixStack (self h).
Proof.
  intros op format a h h2 Hop Hst n h3.
  assert (K : keepsStack op (entered format a h)).
  { unfold keepsStack. rewrite Hop. exact Hst. }
  subst h3. rewrite (LogOp_keepsStack _ _ _ _ K), Hop. simpl fst; simpl snd.
  rewrite left_calls, left_stack, Hst, entered_stack.
  repeat split. apply removelast_last.
Qed.

(** X7. When the process run by [LogCmd] ends without error, [LogCmd]
    returns no error and makes three calls: the start message, the
    debug message naming the command, and the "[finished]" message.
    What the process wrote to its standard output and standard error
    appears in none of them. *)
Theorem LogCmd_success_drops_output :
  forall (path : string) (args : list string) (out err : string)
         (format : string) (a : list value) (h : Heap),
    let cmd := {| Path := path; Args := args;
                  Run := {| ranStdout := out; ranStderr := err;
                            ranErr := None |} |} in
    let quiet := {| Path := path; Args := args;
                    Run := {| ranStdout := ""; ranStderr := "";
                              ranErr := None |} |} in
    let st := (prefixStack (self h)
                 ++ [opLabel (int_wrap (opSequenceNum (self h) + 1))])%list in
    fst (LogCmd cmd format a h) = None
    /\ calls (world (snd (LogCmd cmd format a h)))
       = (calls (world h)
            ++ [(SInfo, prefixed st ("[started]  " ++ Sprintf format a));
                (SDebug, prefixed st (cmdLine cmd));
                (SInfo, prefixed st ("[finished] " ++ Sprintf format a))])%list
    /\ calls (world (snd (LogCmd cmd format a h)))
       = calls (world (snd (LogCmd quiet format a h)))
    /\ prefixStack (self (snd (LogCmd cmd format a h))) = prefixStack (self h).
Proof.
  intros path args out err format a h cmd quiet st.
  assert (E : forall c : Cmd,
             ranErr (Run c) = None ->
             LogCmd c format a h
             = (None,
                left None format a
                     {| self := self (entered format a h);
                        world := wrote SDebug (ops (self (entered format a h)))
                                       (prefixed (prefixStack (self (entered format a h)))
                                                 (cmdLine c))
                                       (world (entered format a h)) |})).
  { intros c Hc. rewrite LogCmd_LogOp.
    rewrite (LogOp_keepsStack _ _ _ _ (cmdAction_keepsStack c (entered format a h))).
    rewrite cmdAction_wrote. unfold cmdFailure. rewrite Hc. reflexivity. }
  rewrite (E cmd eq_refl), (E quiet eq_refl). simpl fst; simpl snd.
  rewrite !left_calls, left_stack. simpl prefixStack. fold st.
  unfold wrote. simpl calls. rewrite <- !app_assoc.
  repeat split. apply removelast_last.
Qed.

(** X8. The debug message of [LogCmd] names the command's path alone
    when its argument list has at most one element, and otherwise the
    path followed by the arguments after the first, in brackets and
    separated by spaces; the first argument is never shown.  It is the
    call that follows the start message, whether the process fails or
    not. *)
Theorem LogCmd_names_the_command :
  forall (cmd : Cmd) (format : string) (a : list value) (h : Heap),
    let st := (prefixStack (self h)
                 ++ [opLabel (int_wrap (opSequenceNum (self h) + 1))])%list in
    let line := if (List.length (Args cmd) <=? 1)%nat
                then "executing: " ++ Path cmd
                else "executing: " ++ Path cmd ++ " ["
                       ++ String.concat " " (tl (Args cmd)) ++ "]" in
    nth_error (calls (world (snd (LogCmd cmd format a h))))
              (S (List.length (calls (world h))))
    = Some (SDebug, prefixed st line).
Proof.
  intros cmd format a h st line.
  rewrite LogCmd_LogOp,
    (LogOp_keepsStack _ _ _ _ (cmdAction_keepsStack cmd (entered format a h))).
  rewrite cmdAction_wrote. simpl fst; simpl snd.
  rewrite left_calls. simpl prefixStack. fold st. unfold wrote. simpl calls.
  rewrite <- !app_assoc. simpl app.
  rewrite nth_error_app2 by lia.
  replace (S (List.length (calls (world h))) - List.length (calls (world h)))%nat
    with 1%nat by lia.
  simpl. do 3 f_equal. subst line. unfold cmdLine.
  destruct (Args cmd) as [|x [|y rest]]; reflexivity.
Qed.

(** X9. The counter is a Go [int].  [LogOp] around an action that
    leaves the logger alone returns with the counter moved up by one
    when it was below the largest [int]; on the largest [int] the
    counter wraps to the smallest, and the start and verdict lines of
    that invocation carry the label "op(-8000000000000000)". *)
Theorem LogOp_counter_wraps :
  forall (result : error) (format : string) (a : list value) (h : Heap),
    int_min <= opSequenceNum (self h) <= int_max ->
    let h3 := snd (LogOp (ret result) format a h) in
    let st := (prefixStack (self h) ++ ["op(-8000000000000000)"])%list in
    (opSequenceNum (self h) < int_max ->
     opSequenceNum (self h3) = opSequenceNum (self h) + 1)
    /\ (opSequenceNum (self h) = int_max ->
        opSequenceNum (self h3) = int_min
        /\ calls (world h3)
           = (calls (world h)
                ++ [(SInfo, prefixed st ("[started]  " ++ Sprintf format a));
                    verdict result st format a])%list).
Proof.
  intros result format a h R h3 st.
  assert (K : keepsStack (ret result) (entered format a h)) by reflexivity.
  assert (E3 : h3 = left result format a (entered format a h)).
  { subst h3. rewrite (LogOp_keepsStack _ _ _ _ K). reflexivity. }
  rewrite E3, left_counter, left_calls, entered_calls, entered_stack.
  split.
  - intros L. simpl. apply int_wrap_small. lia.
  - intros E. simpl opSequenceNum. rewrite E. split; [reflexivity|].
    rewrite <- app_assoc. reflexivity.
Qed.

(** X15. A message logged inside a wrapped operation, through the
    logger that wraps it, carries the operation's label as its
    innermost prefix and stands between the start line and the verdict
    line; when the backend fails on that message, [LogOp] reports that
    failure, in its "[failed]" line and as its result. *)
Theorem LogOp_labels_inner_messages :
  forall (sev : Severity) (inner : string) (ia : list value)
         (format : string) (a : list value) (h : Heap),
    let st := (prefixStack (self h)
                 ++ [opLabel (int_wrap (opSequenceNum (self h) + 1))])%list in
    let answer := fst (method sev (ops (self h))
                              (prefixed st (Sprintf inner ia))
                              (sink (world (entered format a h)))) in
    fst (LogOp (logging sev inner ia) format a h) = answer
    /\ calls (world (snd (LogOp (logging sev inner ia) format a h)))
       = (calls (world h)
            ++ [(SInfo, prefixed st ("[started]  " ++ Sprintf format a));
                (sev, prefixed st (Sprintf inner ia));
                verdict answer st format a])%list
    /\ prefixStack (self (snd (LogOp (logging sev inner ia) format a h)))
       = prefixStack (self h).
Proof.
  intros sev inner ia format a h st answer.
  assert (E : logging sev inner ia (entered format a h)
              = (answer,
                 {| self := self (entered format a h);
                    world := wrote sev (ops (self h))
                                   (prefixed st (Sprintf inner ia))
                                   (world (entered format a h)) |})).
  { unfold logging, bind, gets, lift. rewrite logAt_wrote. reflexivity. }
  assert (K : keepsStack (logging sev inner ia) (entered format a h)).
  { unfold keepsStack. rewrite E. reflexivity. }
  rewrite (LogOp_keepsStack _ _ _ _ K), E. simpl fst; simpl snd.
  rewrite left_calls, left_stack. simpl prefixStack. fold st.
  unfold wrote. simpl calls. rewrite <- !app_assoc.
  repeat split. apply removelast_last.
Qed.

End MoreFacts.

(* ------------------------------------------------------------------ *)
(** ** Facts about the bootcfg command *)

Section BootcfgFacts.

Context {lib : FmtLib}.

Lemma andThen_events {A B} (c : Proc A) (k : A -> Proc B) :
  fst (andThen c k)
  = (fst c ++ match snd c with Some x => fst (k x) | None => [] end)%list.
Proof.
  destruct c as [t [x|]]; simpl; [destruct (k x); reflexivity|].
  now rewrite app_nil_r.
Qed.

Lemma in_andThen {A B} (ev : Event) (c : Proc A) (k : A -> Proc B) :
  In ev (fst (andThen c k)) ->
  In ev (fst c) \/ exists x, snd c = Some x /\ In ev (fst (k x)).
Proof.
  rewrite andThen_events. intros H. apply in_app_or in H as [H|H]; [now left|].
  destruct (snd c) as [x|]; [right; eauto | contradiction].
Qed.

(** Case analysis on a call whose result a run depends on. *)
Ltac atom_case H :=
  match type of H with
  | context [match ?x with _ => _ end] =>
      lazymatch x with
      | context [match _ with _ => _ end] => fail
      | _ => destruct x eqn:?
      end
  end.

(** What a step that did not exit says about the calls it made. *)
Ltac settle Hx :=
  unfold andThen, emit, fatal, done in Hx;
  repeat (atom_case Hx; simpl in Hx; try discriminate Hx).

(** Follows an event of a run through the steps of [main], in program
    order. *)
Ltac hunt H :=
  lazymatch type of H with
  | In _ (fst (andThen _ _)) =>
      apply in_andThen in H;
      let x := fresh "x" in
      let Hx := fresh "Hx" in
      destruct H as [H | (x & Hx & H)];
      [ hunt H | settle Hx; hunt H ]
  | In _ (fst (match ?c with _ => _ end)) =>
      destruct c eqn:?; hunt H
  | _ => simpl in H; try solve [intuition discriminate]
  end.

(** Runs [main] again along the calls whose results are known. *)
Ltac replay :=
  unfold main; cbv zeta;
  repeat match goal with
         | E : ?x = _ |- context [?x] => rewrite E
         end;
  unfold andThen, emit, fatal, done; simpl.

Ltac tidy :=
  repeat match goal with
         | H : negb _ = true |- _ => apply negb_true_iff in H
         | H : negb _ = false |- _ => apply negb_false_iff in H
         | H : (_ =? _)%string = true |- _ => apply String.eqb_eq in H
         | H : (_ =? _)%string = false |- _ => apply String.eqb_neq in H
         end.

(** Where a run is stuck. *)
Ltac blocker t :=
  lazymatch t with
  | match ?x with _ => _ end => blocker x
  | statPaths ?x => blocker x
  | fst ?x => blocker x
  | negb ?x => blocker x
  | ?x => x
  end.

(** Goes through every run of [main], in program order. *)
Ltac walk :=
  simpl;
  lazymatch goal with
  | |- exists rest, _ = (?lhs ++ rest)%list =>
      lazymatch lhs with
      | context [statPaths] => let b := blocker lhs in destruct b; walk
      | _ => eexists; reflexivity
      end
  | |- _ => eexists; reflexivity
  end.

(** X10. [main] reaches [http.ListenAndServe] exactly when neither
    -version nor -help is set and every check passes: the environment
    flags are read without error, the address parses to a URL that is
    not empty, the data path is a directory, the assets path is empty
    or a directory, the log level parses, the key ring path is empty
    or the key ring loads, and the RPC address is empty or the three
    TLS files exist, the RPC listener opens and the TLS configuration
    builds.  It then serves on the -address flag, with the assets path
    of the flags, and with signing exactly when a key ring path was
    given. *)
Theorem main_serves_iff_valid :
  forall (e : Env) (addr assets : string) (signing : bool),
    In (ListenAndServe addr assets signing) (fst (main e))
    <-> (valid e
         /\ version (flags e) = false
         /\ help (flags e) = false
         /\ addr = address (flags e)
         /\ assets = assetsPath (flags e)
         /\ signing = negb (keyRingPath (flags e) =? "")%string).
Proof.
  intros e addr assets signing. split.
  - intros H. unfold main in H. hunt H.
    all: destruct H as [H|[]]; injection H as <- <- <-.
    all: repeat match goal with H : Some _ = Some _ |- _ => injection H as <- end.
    all: repeat match goal with
           | E : negb (?s =? "")%string = _ |- context [negb (?s =? "")%string] =>
               rewrite E
           end.
    all: tidy; subst.
    all: unfold valid; cbv zeta.
    all: repeat split; eauto.
    all: right; repeat split; eauto.
  - intros (V & Hv & Hh & -> & -> & ->).
    destruct V as (H1 & (url & H2 & H2') & H3 & H4 & H5 & (lvl & H6) & H7).
    cbv zeta in *. apply String.eqb_neq in H2'.
    assert (A : (assetsPath (flags e) =? "")%string = true
                \/ ((assetsPath (flags e) =? "")%string = false
                    /\ os_Stat e (assetsPath (flags e)) = inl true)).
    { destruct (String.eqb_spec (assetsPath (flags e)) ""); [now left|].
      right. split; [reflexivity|]. destruct H4; [contradiction | assumption]. }
    assert (K : (keyRingPath (flags e) =? "")%string = true
                \/ ((keyRingPath (flags e) =? "")%string = false
                    /\ sign_LoadGPGEntity e (keyRingPath (flags e)) (os_Getenv e)
                       = None)).
    { destruct (String.eqb_spec (keyRingPath (flags e)) ""); [now left|].
      right. split; [reflexivity|]. destruct H7; [contradiction | assumption]. }
    assert (R : (rpcAddress (flags e) =? "")%string = true
                \/ ((rpcAddress (flags e) =? "")%string = false
                    /\ (exists d, os_Stat e (certFile (flags e)) = inl d)
                    /\ (exists d, os_Stat e (keyFile (flags e)) = inl d)
                    /\ (exists d, os_Stat e (caFile (flags e)) = inl d)
                    /\ net_Listen e (rpcAddress (flags e)) = None
                    /\ tlsinfo_ServerConfig e (certFile (flags e))
                                            (keyFile (flags e))
                                            (caFile (flags e)) = None)).
    { destruct (String.eqb_spec (rpcAddress (flags e)) ""); [now left|].
      right. split; [reflexivity|]. destruct H5; [contradiction | assumption]. }
    clear H4 H5 H7.
    destruct A as [A | (A & A')];
      destruct K as [K | (K & K')];
      destruct R as [R | (R & (d1 & R1) & (d2 & R2) & (d3 & R3) & R4 & R5)];
      destruct (http_ListenAndServe e (address (flags e))) eqn:Eh;
      replay; tauto.
Qed.

(** X11. Once the environment flags are read without error, -version
    prints the version and returns, and -help without -version prints
    the usage and returns: neither examines a file, parses the address
    or starts a server, and -version wins over -help. *)
Theorem main_version_and_help :
  forall e : Env,
    flagutil_SetFlagsFromEnv e = None ->
    (version (flags e) = true ->
     main e = ([Println (version_Version e)], Some tt))
    /\ (version (flags e) = false -> help (flags e) = true ->
        main e = ([Usage], Some tt)).
Proof.
  intros e E. split.
  - intros V. unfold main. rewrite E, V. reflexivity.
  - intros V Hh. unfold main. rewrite E, V, Hh. reflexivity.
Qed.

(** X12. With an empty -rpc-address, [main] never opens the RPC
    listener, builds no TLS configuration, starts and stops no gRPC
    server, and examines no file but the data path and the assets
    path: the TLS certificate, key and CA files are not looked at. *)
Theorem main_without_rpc :
  forall (e : Env) (ev : Event),
    rpcAddress (flags e) = "" ->
    In ev (fst (main e)) ->
    match ev with
    | Listen _ | ServerConfig _ _ _ | Serve | Stop => False
    | Stat path => path = dataPath (flags e) \/ path = assetsPath (flags e)
    | _ => True
    end.
Proof.
  intros e ev R H. apply String.eqb_eq in R.
  unfold main in H. cbv zeta in H. rewrite R in H. cbn [negb] in H.
  hunt H.
  all: repeat (destruct H as [H|H]); try contradiction; subst ev; simpl; auto.
Qed.

(** X13. The deferred [grpcServer.Stop] runs only in a run in which
    the gRPC server was started and [http.ListenAndServe] returned no
    error, so that [main] returns: when [http.ListenAndServe] fails,
    [log.Fatalf] ends the process and the gRPC server is not
    stopped. *)
Theorem main_stops_grpc_only_on_return :
  forall e : Env,
    In Stop (fst (main e)) ->
    rpcAddress (flags e) <> ""
    /\ http_ListenAndServe e (address (flags e)) = None
    /\ snd (main e) = Some tt.
Proof.
  intros e H. unfold main in H. hunt H.
  all: repeat match goal with H : Some _ = Some _ |- _ => injection H as <- end.
  all: try discriminate.
  all: split; [tidy; assumption | split; [reflexivity|]].
  all: clear H;
    repeat match goal with
           | H : Some _ = Some _ |- _ => clear H
           | H : snd _ = Some _ |- _ => clear H
           end;
    subst.
  all: replay; reflexivity.
Qed.

(** X14. In every run, the files [main] examines are an initial
    segment of: the data path, the assets path unless it is empty, and,
    unless the RPC address is empty, the certificate, key and CA
    files, in this order.  No other file is examined and none out of
    turn. *)
Theorem main_examines_in_order :
  forall e : Env,
    exists rest : list string,
      examined (flags e) = (statPaths (fst (main e)) ++ rest)%list.
Proof.
  intros e. unfold main, examined. cbv zeta.
  unfold andThen, emit, fatal, done.
  walk.
Qed.

(** Runs [main] again up to the first call that ends it. *)
Ltac replay_to_exit :=
  repeat match goal with
         | H : ?x = ?x |- _ => clear H
         end;
  unfold main; cbv zeta;
  repeat match goal with
         | E : ?x = _ |- context [?x] => rewrite E
         end;
  lazy beta iota delta [andThen emit fatal done negb];
  cbn [app].

(** Splits the checks known to pass or fail into the results of the
    calls they rest on. *)
Ltac open_checks :=
  unfold addressOk, isDirectory in *;
  repeat match goal with
         | H : context [match ?x with _ => _ end] |- _ =>
             lazymatch x with
             | context [match _ with _ => _ end] => fail
             | _ => destruct x eqn:?
             end
         end;
  try discriminate;
  repeat match goal with
         | H : negb _ = true |- _ => apply negb_true_iff in H
         | H : negb _ = false |- _ => apply negb_false_iff in H
         end.

(** X16. [main] reports the first check that fails, in the order of
    the program, and does nothing after it.  An error reading the
    environment flags is reported before anything else, even -version.
    Otherwise, without -version and -help: a bad address is reported
    without a file being examined; with a good address, a data path
    that is no directory is reported right after it was examined; with
    these good, an assets path that is given and is no directory is
    reported next, by its path; and with the assets path empty or good
    and an RPC address given, a certificate file that cannot be
    examined is reported next, with the error of [os.Stat]. *)
Theorem main_reports_first_failure :
  forall e : Env,
    let f := flags e in
    (forall err : goerror,
        flagutil_SetFlagsFromEnv e = Some err ->
        main e = ([Fatal (emsg err)], None))
    /\ (flagutil_SetFlagsFromEnv e = None ->
        version f = false ->
        help f = false ->
        (addressOk e = false ->
         main e = ([Fatal "A valid HTTP listen address is required"], None))
        /\ (addressOk e = true ->
            isDirectory e (dataPath f) = false ->
            main e = ([Stat (dataPath f);
                       Fatal "A valid -data-path is required"], None))
        /\ (addressOk e = true ->
            isDirectory e (dataPath f) = true ->
            assetsPath f <> "" ->
            isDirectory e (assetsPath f) = false ->
            main e
            = ([Stat (dataPath f); Stat (assetsPath f);
                Fatal ("Provide a valid -assets-path or '' to disable asset serving: "
                         ++ assetsPath f)], None))
        /\ (addressOk e = true ->
            isDirectory e (dataPath f) = true ->
            assetsPath f = "" \/ isDirectory e (assetsPath f) = true ->
            rpcAddress f <> "" ->
            forall err : goerror,
              os_Stat e (certFile f) = inr err ->
              main e
              = ((Stat (dataPath f)
                    :: (if (assetsPath f =? "")%string
                        then []
                        else [Stat (assetsPath f)])
                    ++ [Stat (certFile f);
                        Fatal ("Provide a valid TLS server certificate with -cert-file: "
                                 ++ emsg err)])%list,
                 None))).
Proof.
  intros e f. subst f. split.
  - intros err E. unfold main. rewrite E. reflexivity.
  - intros E V Hh. repeat split.
    + intros A. open_checks; replay_to_exit; reflexivity.
    + intros A D. open_checks; replay_to_exit; reflexivity.
    + intros A D N B. apply String.eqb_neq in N.
      open_checks; replay_to_exit; simpl Sprintf; rewrite ?append_empty_r; reflexivity.
    + intros A D B N err C. apply String.eqb_neq in N.
      destruct B as [B|B].
      * apply String.eqb_eq in B.
        open_checks; replay_to_exit; simpl Sprintf; rewrite ?append_empty_r; reflexivity.
      * destruct (assetsPath (flags e) =? "")%string eqn:Ea;
          open_checks; replay_to_exit; simpl Sprintf; rewrite ?append_empty_r; reflexivity.
Qed.

End BootcfgFacts.

(* ------------------------------------------------------------------ *)
(** ** The further facts at concrete inputs *)

(** [LogOp_success] at an action that succeeds and leaves the logger
    alone. *)
Lemma LogOp_success_witness :
  fst (Sample.LogOp Sample.succeeding "fetch %s" [VString "config"]
                    (Sample.start Sample.booted))
  = None
  /\ calls (world (snd (Sample.LogOp Sample.succeeding "fetch %s"
                                     [VString "config"]
                                     (Sample.start Sample.booted))))
     = [(SInfo, "boot: op(1): [started]  fetch config");
        (SInfo, "boot: op(1): [finished] fetch config")]
  /\ prefixStack (self (snd (Sample.LogOp Sample.succeeding "fetch %s"
                                          [VString "config"]
                                          (Sample.start Sample.booted))))
     = ["boot"].
Proof.
  exact (LogOp_success (lib := sampleLib) (Sink := Sample.Sink)
           Sample.succeeding "fetch %s" [VString "config"]
           (Sample.start Sample.booted)
           (Sample.entered "fetch %s" [VString "config"]
                           (Sample.start Sample.booted))
           eq_refl eq_refl).
Defined.

(** [LogOp_counter_wraps] at a logger whose counter is the largest
    [int]. *)
Lemma LogOp_counter_wraps_witness :
  int_min <= int_max <= int_max
  /\ opSequenceNum
       (self (snd (Sample.LogOp
                     Sample.succeeding "work" []
                     {| self := {| ops := consoleOps; prefixStack := [];
                                   opSequenceNum := int_max |};
                        world := Sample.quiet |})))
     = int_min
  /\ calls
       (world (snd (Sample.LogOp
                      Sample.succeeding "work" []
                      {| self := {| ops := consoleOps; prefixStack := [];
                                    opSequenceNum := int_max |};
                         world := Sample.quiet |})))
     = [(SInfo, "op(-8000000000000000): [started]  work");
        (SInfo, "op(-8000000000000000): [finished] work")].
Proof.
  assert (R : int_min <= int_max <= int_max) by (vm_compute; split; discriminate).
  exact (conj R
           (proj2 (LogOp_counter_wraps (lib := sampleLib) (Sink := Sample.Sink)
                     None "work" []
                     {| self := {| ops := consoleOps; prefixStack := [];
                                   opSequenceNum := int_max |};
                        world := Sample.quiet |} R)
                  eq_refl)).
Defined.

(** [main_version_and_help] where both flags are set and every other
    flag is empty. *)
Lemma main_version_witness :
  main (lib := sampleLib) (SampleRun.allBad SampleRun.versionFlags)
  = ([Println "v0.3.0"], Some tt).
Proof.
  exact (proj1 (main_version_and_help (lib := sampleLib)
                  (SampleRun.allBad SampleRun.versionFlags) eq_refl)
               eq_refl).
Defined.

(** [main_without_rpc] at the declared flags, on the first file
    examined. *)
Lemma main_without_rpc_witness :
  rpcAddress defaultFlags = ""
  /\ In (Stat "/var/lib/bootcfg")
        (fst (main (lib := sampleLib) (SampleRun.allGood defaultFlags None)))
  /\ ("/var/lib/bootcfg" = dataPath defaultFlags
      \/ "/var/lib/bootcfg" = assetsPath defaultFlags).
Proof.
  assert (I : In (Stat "/var/lib/bootcfg")
                 (fst (main (lib := sampleLib)
                            (SampleRun.allGood defaultFlags None))))
    by (left; reflexivity).
  exact (conj eq_refl
           (conj I
              (main_without_rpc (lib := sampleLib)
                 (SampleRun.allGood defaultFlags None)
                 (Stat "/var/lib/bootcfg") eq_refl I))).
Defined.

(** [main_stops_grpc_only_on_return] at a run with the gRPC server in
    which [http.ListenAndServe] returns without error. *)
Lemma main_stops_grpc_witness :
  In Stop (fst (main (lib := sampleLib)
                     (SampleRun.allGood SampleRun.rpcFlags None)))
  /\ snd (main (lib := sampleLib) (SampleRun.allGood SampleRun.rpcFlags None))
     = Some tt.
Proof.
  assert (I : In Stop (fst (main (lib := sampleLib)
                                 (SampleRun.allGood SampleRun.rpcFlags None))))
    by (vm_compute; tauto).
  exact (conj I
           (proj2 (proj2 (main_stops_grpc_only_on_return (lib := sampleLib)
                            (SampleRun.allGood SampleRun.rpcFlags None) I)))).
Defined.

(** [main_reports_first_failure] where nothing is in order: the bad
    address is what is reported. *)
Lemma main_reports_first_failure_witness :
  main (lib := sampleLib) (SampleRun.allBad defaultFlags)
  = ([Fatal "A valid HTTP listen address is required"], None).
Proof.
  exact (proj1 (proj2 (main_reports_first_failure (lib := sampleLib)
                         (SampleRun.allBad defaultFlags))
                      eq_refl eq_refl eq_refl)
               eq_refl).
Defined.
